(** * A shallow embedding of the task list core of [script.js]

    The development covers the classes [Task] and [TaskManager] of
    [script.js] (lines 1-94) and the view on them, [UIController] and
    [TodoApp] (lines 97-247).  The Firebase initialisation at the end of
    the file talks to a remote service and is not embedded.

    Modelling choices.

    - A JavaScript string is the list of its UTF-16 code units.
    - A [Date] object is its time value: a number of milliseconds since
      the epoch, or [None] for the [NaN] of an "Invalid Date".
    - [new Date()] reads the wall clock.  Every method that reads it takes
      the reading as its first argument [now], once per call of the
      method; a handler of the view passes its reading on to the methods
      it calls.
    - [Date.parse] is implementation defined: it is a variable of the
      section.
    - Task objects and arrays live in a store and are handled through
      references, as in JavaScript: [push] updates an array in place,
      [filter] and the spread [[...a]] allocate a new array, and
      [toggle] updates a task object that every array holding its
      reference sees.  A reference that points outside the store makes a
      computation stuck ([None]); the theorems show this never happens.
    - The document is a record of what the view reads and writes of it
      ([Page]); an [li] element is its class name and the HTML written
      into it.  [toLocaleString] depends on the engine's locale data: it
      is a variable of the section.  [escapeHtml] follows the HTML
      serialisation of a text node.  A user's answer to [confirm] is an
      argument of the handler that asks.
    - Task ids and counts are integers ([Z]); JavaScript numbers agree
      with them below 2^53.
    - A difference of two time values is an integer, and its quotient by
      3600000 is kept exact in [Q].  The engine rounds the quotient to a
      double; rounding is monotone, 0 and 24 are doubles, and the
      quotients next to them are 1/3600000 away, far more than the
      spacing of the doubles there, so the comparisons with 0 and with 24
      come out the same.  [due_window_binary64] computes them in
      binary64 for the examples at the end. *)

From Stdlib Require Import ZArith QArith Qabs Ascii String DecimalString.
From Stdlib Require Import Floats.SpecFloat.
From stdpp Require Import base option list sorting.

Local Open Scope Z_scope.

(** ** Strings *)

(** A string is a sequence of UTF-16 code units. *)
Definition JsString : Type := list N.

Definition code_units (s : string) : JsString :=
  N_of_ascii <$> list_ascii_of_string s.

(** [WhiteSpace] and [LineTerminator] of ECMAScript: what
    [String.prototype.trim] strips. *)
Definition is_white_space (c : N) : bool :=
  ((c =? 0x0009) || (c =? 0x000A) || (c =? 0x000B) || (c =? 0x000C)
   || (c =? 0x000D) || (c =? 0x0020) || (c =? 0x00A0) || (c =? 0x1680)
   || ((0x2000 <=? c) && (c <=? 0x200A))
   || (c =? 0x2028) || (c =? 0x2029) || (c =? 0x202F) || (c =? 0x205F)
   || (c =? 0x3000) || (c =? 0xFEFF))%N.

Fixpoint trim_start (s : JsString) : JsString :=
  match s with
  | [] => []
  | c :: s' => if is_white_space c then trim_start s' else s
  end.

Definition trim_end (s : JsString) : JsString :=
  reverse (trim_start (reverse s)).

(** [text.trim()] *)
Definition trim (s : JsString) : JsString := trim_end (trim_start s).

(** ** Values and dates *)

Inductive JsNumber : Type :=
  | NaN
  | Infinity (negative : bool)
  | Finite (q : Q).

(** The values a caller passes as [deadline]. *)
Inductive JsValue : Type :=
  | JsUndefined
  | JsNull
  | JsBoolean (b : bool)
  | JsNumeric (n : JsNumber)
  | JsText (s : JsString).

(** [ToBoolean] *)
Definition truthy (v : JsValue) : bool :=
  match v with
  | JsUndefined | JsNull => false
  | JsBoolean b => b
  | JsNumeric NaN => false
  | JsNumeric (Infinity _) => true
  | JsNumeric (Finite q) => negb (Qnum q =? 0)
  | JsText s => negb (bool_decide (s = []))
  end.

(** A parameter with the default value [null]: [deadline = null]. *)
Definition or_null (v : JsValue) : JsValue :=
  match v with
  | JsUndefined => JsNull
  | _ => v
  end.

(** The time value of a [Date]; [None] is [NaN]. *)
Definition Date : Type := option Z.

(** [TimeClip]: beyond 8.64e15 ms there is no date; a fraction is
    truncated towards zero. *)
Definition TimeClip (n : JsNumber) : Date :=
  match n with
  | NaN | Infinity _ => None
  | Finite q =>
      if Qle_bool (Qabs q) (inject_Z 8640000000000000)
      then Some (Z.quot (Qnum q) (Zpos (Qden q)))
      else None
  end.

Definition ms_per_hour : Z := 1000 * 60 * 60.

(** [a - b] on two dates: the difference of the time values, [NaN] when
    one of them is. *)
Definition date_diff (a b : Date) : option Z :=
  match a, b with
  | Some x, Some y => Some (x - y)
  | _, _ => None
  end.

(** [a > b] on two dates; a comparison with [NaN] is false. *)
Definition date_gt (a b : Date) : bool :=
  match a, b with
  | Some x, Some y => y <? x
  | _, _ => false
  end.

Definition Qlt_bool (a b : Q) : bool :=
  Qnum a * Zpos (Qden b) <? Qnum b * Zpos (Qden a).

(** ** Tasks *)

Record Task : Type := mkTask {
  id : Z;
  text : JsString;
  completed : bool;
  createdAt : Date;
  deadline : option Date   (* [None] is [null] *)
}.

Definition set_completed (b : bool) (t : Task) : Task :=
  mkTask (id t) (text t) b (createdAt t) (deadline t).

(** [toggle()] *)
Definition toggle (t : Task) : Task := set_completed (negb (completed t)) t.

(** [isOverdue()]; a [Date] object is truthy, also an invalid one. *)
Definition isOverdue (now : Z) (t : Task) : bool :=
  match deadline t with
  | None => false
  | Some d =>
      if completed t then false
      else date_gt (Some now) d
  end.

(** [isDueSoon()] *)
Definition isDueSoon (now : Z) (t : Task) : bool :=
  match deadline t with
  | None => false
  | Some d =>
      if completed t then false
      else
        match date_diff d (Some now) with
        | None => false
        | Some timeDiff =>
            let hoursDiff := (inject_Z timeDiff / inject_Z ms_per_hour)%Q in
            Qlt_bool 0 hoursDiff && Qle_bool hoursDiff 24
        end
  end.

(** The two comparisons of [isDueSoon] as the engine computes them, in
    binary64: [timeDiff / (1000 * 60 * 60)] is the rounded quotient of
    two doubles.  The examples below evaluate them at the ends of the
    window, where they agree with the exact ones. *)
Definition binary64_of_Z (z : Z) : spec_float :=
  binary_normalize 53 1024 z 0 false.

Definition due_window_binary64 (timeDiff : Z) : bool :=
  let hoursDiff :=
    SFdiv 53 1024 (binary64_of_Z timeDiff) (binary64_of_Z ms_per_hour) in
  SFltb (binary64_of_Z 0) hoursDiff && SFleb hoursDiff (binary64_of_Z 24).

Definition due_window (timeDiff : Z) : bool :=
  let hoursDiff := (inject_Z timeDiff / inject_Z ms_per_hour)%Q in
  Qlt_bool 0 hoursDiff && Qle_bool hoursDiff 24.

(** ** The store *)

(** A reference is an index in the store it points to. *)
Abbreviation ref := nat (only parsing).

Record TaskManager : Type := mkTaskManager {
  tasks : ref;      (* the array [this.tasks] *)
  nextId : Z
}.

Record World : Type := mkWorld {
  task_heap : list Task;
  array_heap : list (list ref);
  this : TaskManager
}.

Inductive JsError : Type :=
  | Error (message : string).

Inductive Completion (A : Type) : Type :=
  | Normal (a : A)
  | Throw (e : JsError).
Arguments Normal {A} a.
Arguments Throw {A} e.

(** A computation changes the world and completes normally or abruptly;
    [None] is a dangling reference. *)
Definition Js (A : Type) : Type := World → option (Completion A * World).

#[export] Instance Js_ret : MRet Js := λ A a w, Some (Normal a, w).

#[export] Instance Js_bind : MBind Js := λ A B f m w,
  match m w with
  | Some (Normal a, w') => f a w'
  | Some (Throw e, w') => Some (Throw e, w')
  | None => None
  end.

Definition throw {A} (e : JsError) : Js A := λ w, Some (Throw e, w).

Definition lift {A} (f : World → option A) : Js A :=
  λ w, match f w with Some a => Some (Normal a, w) | None => None end.

Definition modify (f : World → World) : Js unit :=
  λ w, Some (Normal tt, f w).

Definition set_task_heap (h : list Task) (w : World) : World :=
  mkWorld h (array_heap w) (this w).

Definition set_array_heap (h : list (list ref)) (w : World) : World :=
  mkWorld (task_heap w) h (this w).

Definition set_this (m : TaskManager) (w : World) : World :=
  mkWorld (task_heap w) (array_heap w) m.

Definition read_task (r : ref) : Js Task := lift (λ w, task_heap w !! r).

Definition read_array (a : ref) : Js (list ref) :=
  lift (λ w, array_heap w !! a).

Definition alloc_task (t : Task) : Js ref := λ w,
  Some (Normal (length (task_heap w)), set_task_heap (task_heap w ++ [t]) w).

Definition alloc_array (l : list ref) : Js ref := λ w,
  Some (Normal (length (array_heap w)),
        set_array_heap (array_heap w ++ [l]) w).

Definition write_task (r : ref) (t : Task) : Js unit := λ w,
  if decide (r < length (task_heap w))%nat
  then Some (Normal tt, set_task_heap (<[r := t]> (task_heap w)) w)
  else None.

Definition write_array (a : ref) (l : list ref) : Js unit := λ w,
  if decide (a < length (array_heap w))%nat
  then Some (Normal tt, set_array_heap (<[a := l]> (array_heap w)) w)
  else None.

Definition get_tasks : Js ref := lift (λ w, Some (tasks (this w))).

Definition set_tasks (a : ref) : Js unit :=
  modify (λ w, set_this (mkTaskManager a (nextId (this w))) w).

(** [this.nextId++]: the old value is the result. *)
Definition post_increment_nextId : Js Z := λ w,
  Some (Normal (nextId (this w)),
        set_this (mkTaskManager (tasks (this w)) (nextId (this w) + 1)) w).

(** [a.push(r)] *)
Definition array_push (a : ref) (r : ref) : Js unit :=
  l ← read_array a; write_array a (l ++ [r]).

(** [a.filter(task => p(task))]: a new array. *)
Fixpoint select (p : Task → bool) (l : list ref) : Js (list ref) :=
  match l with
  | [] => mret []
  | r :: l' =>
      t ← read_task r;
      k ← select p l';
      mret (if p t then r :: k else k)
  end.

Definition array_filter (p : Task → bool) (a : ref) : Js ref :=
  l ← read_array a; k ← select p l; alloc_array k.

(** [a.find(task => p(task))]: the first match, [undefined] without one. *)
Fixpoint array_find_in (p : Task → bool) (l : list ref) : Js (option ref) :=
  match l with
  | [] => mret None
  | r :: l' =>
      t ← read_task r;
      if p t then mret (Some r) else array_find_in p l'
  end.

Definition array_find (p : Task → bool) (a : ref) : Js (option ref) :=
  l ← read_array a; array_find_in p l.

(** [a.filter(task => p(task)).length] *)
Definition count_where (p : Task → bool) (a : ref) : Js Z :=
  l ← read_array a; k ← select p l; mret (Z.of_nat (length k)).

(** The object [getStats] returns. *)
Module Stats.
Record t : Type := mk {
  total : Z;
  completed : Z;
  remaining : Z;
  overdue : Z;
  dueSoon : Z
}.
End Stats.

Section TaskList.

(** [Date.parse]: the time value a string denotes, [NaN] for none. *)
Variable Date_parse : JsString → JsNumber.

(** [new Date(v)] for the values of [JsValue]. *)
Definition new_Date (v : JsValue) : Date :=
  match v with
  | JsText s => TimeClip (Date_parse s)
  | JsNumeric n => TimeClip n
  | JsBoolean b => Some (if b then 1 else 0)
  | JsNull => Some 0
  | JsUndefined => None
  end.

(** [new Task(id, text, deadline)] *)
Definition new_Task (now : Z) (i : Z) (s : JsString) (d : JsValue) : Js ref :=
  let d := or_null d in
  alloc_task
    (mkTask i s false (Some now) (if truthy d then Some (new_Date d) else None)).

(** ** The task manager *)

(** [new TaskManager()], in the empty store. *)
Definition new_TaskManager : World :=
  mkWorld [] [[]] (mkTaskManager 0%nat 1).

Definition addTask (now : Z) (s : JsString) (d : JsValue) : Js ref :=
  let d := or_null d in
  if bool_decide (trim s = [])
  then throw (Error "Task text cannot be empty")
  else
    i ← post_increment_nextId;
    task ← new_Task now i (trim s) d;
    a ← get_tasks;
    array_push a task;;
    mret task.

Definition deleteTask (i : Z) : Js unit :=
  a ← get_tasks;
  b ← array_filter (λ task, negb (id task =? i)) a;
  set_tasks b.

Definition toggleTask (i : Z) : Js unit :=
  a ← get_tasks;
  found ← array_find (λ task, id task =? i) a;
  match found with
  | Some r => t ← read_task r; write_task r (toggle t)
  | None => mret tt
  end.

Definition clearCompleted : Js unit :=
  a ← get_tasks;
  b ← array_filter (λ task, negb (completed task)) a;
  set_tasks b.

Definition getStats (now : Z) : Js Stats.t :=
  a ← get_tasks;
  l ← read_array a;
  let total := Z.of_nat (length l) in
  completed ← count_where (λ task, completed task) a;
  let remaining := total - completed in
  overdue ← count_where (λ task, isOverdue now task) a;
  dueSoon ← count_where (λ task, isDueSoon now task) a;
  mret (Stats.mk total completed remaining overdue dueSoon).

(** [[...this.tasks]]: a new array with the same elements. *)
Definition getAllTasks : Js ref :=
  a ← get_tasks;
  l ← read_array a;
  alloc_array l.

(** ** Sessions *)

(** What a caller can ask of the manager. *)
Inductive Call : Type :=
  | AddTask (s : JsString) (d : JsValue)
  | DeleteTask (i : Z)
  | ToggleTask (i : Z)
  | ClearCompleted
  | GetStats
  | GetAllTasks.

(** One call at the clock reading [now]; the result is the task an
    [addTask] returned. *)
Definition perform (now : Z) (c : Call) : Js (option ref) :=
  match c with
  | AddTask s d => r ← addTask now s d; mret (Some r)
  | DeleteTask i => deleteTask i;; mret None
  | ToggleTask i => toggleTask i;; mret None
  | ClearCompleted => clearCompleted;; mret None
  | GetStats => getStats now;; mret None
  | GetAllTasks => getAllTasks;; mret None
  end.

(** A session is a sequence of calls, each with its clock reading.  An
    exception is caught by the caller and the session goes on.  The
    result lists the ids of the tasks the successful [addTask] calls
    returned, in the order of the calls. *)
Fixpoint run (calls : list (Z * Call)) (w : World)
  : option (list Z * World) :=
  match calls with
  | [] => Some ([], w)
  | (now, c) :: rest =>
      match perform now c w with
      | None => None
      | Some (Normal (Some r), w') =>
          t ← task_heap w' !! r;
          '(ids, w'') ← run rest w';
          Some (id t :: ids, w'')
      | Some (_, w') => run rest w'
      end
  end.

(** The [addTask] calls whose text is accepted, and their number in a
    session. *)
Definition accepted (c : Z * Call) : bool :=
  match c.2 with
  | AddTask s _ => negb (bool_decide (trim s = []))
  | _ => false
  end.

(** The task object a successful [addTask] builds. *)
Definition made_task (now : Z) (i : Z) (s : JsString) (d : JsValue) : Task :=
  mkTask i (trim s) false (Some now)
    (if truthy d then Some (new_Date d) else None).

Definition successful (calls : list (Z * Call)) : nat :=
  length (filter (λ c, accepted c) calls).

(** ** Observing a world *)

(** The elements of [this.tasks]. *)
Definition task_refs (w : World) : option (list ref) :=
  array_heap w !! tasks (this w).

Definition deref_all (w : World) (l : list ref) : option (list Task) :=
  mapM (λ r, task_heap w !! r) l.

(** The tasks collection: the task objects of [this.tasks], in order. *)
Definition collection (w : World) : option (list Task) :=
  l ← task_refs w; deref_all w l.

(** The tasks of a snapshot, an array [getAllTasks] returned. *)
Definition snapshot (w : World) (a : ref) : option (list Task) :=
  l ← array_heap w !! a; deref_all w l.

(** Whether the task a reference points to passes a test. *)
Definition holds (p : Task → bool) (w : World) (r : ref) : bool :=
  from_option p false (task_heap w !! r).

(** The world after [this.tasks = this.tasks.filter(p)], for the elements
    [l] of [this.tasks]. *)
Definition filtered (p : Task → bool) (l : list ref) (w : World) : World :=
  mkWorld (task_heap w)
    (array_heap w ++ [filter (λ r, holds p w r) l])
    (mkTaskManager (length (array_heap w)) (nextId (this w))).

(** Every reference of the world points into the store. *)
Definition refs_ok (w : World) (l : list ref) : Prop :=
  Forall (λ r, r < length (task_heap w))%nat l.

Record wf (w : World) : Prop := mk_wf {
  wf_this : (tasks (this w) < length (array_heap w))%nat;
  wf_arrays : Forall (refs_ok w) (array_heap w)
}.

(** The state of the manager: the elements of [this.tasks], the task
    objects and the counter.  An array nothing refers to any more is no
    part of it. *)
Definition manager_state (w : World) : option (list ref) * list Task * Z :=
  (task_refs w, task_heap w, nextId (this w)).

(** What holds of every world a session reaches from [new_TaskManager]:
    the counter is one more than the number of tasks ever created, the
    task created as number [r] (from 0) has id [r + 1], and [this.tasks]
    lists its tasks in the order of their creation. *)
Record inv (w : World) : Prop := mk_inv {
  inv_wf : wf w;
  inv_next : nextId (this w) = Z.of_nat (length (task_heap w)) + 1;
  inv_id : ∀ r t, task_heap w !! r = Some t → id t = Z.of_nat r + 1;
  inv_sorted : ∀ l, task_refs w = Some l → StronglySorted lt l
}.

(** The completion and the world of [perform now c], for the elements
    [l] of [this.tasks]. *)
Definition outcome (now : Z) (c : Call) (l : list ref) (w : World)
  : Completion (option ref) * World :=
  match c with
  | AddTask s d =>
      if bool_decide (trim s = [])
      then (Throw (Error "Task text cannot be empty"), w)
      else
        (Normal (Some (length (task_heap w))),
         mkWorld
           (task_heap w ++ [made_task now (nextId (this w)) s d])
           (<[tasks (this w) := l ++ [length (task_heap w)]]> (array_heap w))
           (mkTaskManager (tasks (this w)) (nextId (this w) + 1)))
  | DeleteTask i =>
      (Normal None, filtered (λ task, negb (id task =? i)) l w)
  | ToggleTask i =>
      (Normal None,
       match List.find (holds (λ task, id task =? i) w) l with
       | Some r => set_task_heap (alter toggle r (task_heap w)) w
       | None => w
       end)
  | ClearCompleted =>
      (Normal None, filtered (λ task, negb (completed task)) l w)
  | GetStats => (Normal None, w)
  | GetAllTasks => (Normal None, set_array_heap (array_heap w ++ [l]) w)
  end.

(** ** The page *)

(** What [UIController] reads and writes of the document: the values of
    the two inputs, the focus, the items of the list, the two [display]
    styles, the three counters, the [disabled] flag of the clear button,
    and the dialogs shown so far, oldest first.  The page and the world
    together are the state of the view's methods. *)

Definition dq : JsString := [34%N].
Definition nl : JsString := [10%N].

(** A count or an id in a template or as [textContent]: its decimal
    digits. *)
Definition number_to_string (z : Z) : JsString :=
  code_units (NilZero.string_of_int (Z.to_int z)).

(** How the text of a node is written as HTML. *)
Definition escape_code_unit (c : N) : JsString :=
  if (c =? 0x26)%N then code_units "&amp;"
  else if (c =? 0xA0)%N then code_units "&nbsp;"
  else if (c =? 0x3C)%N then code_units "&lt;"
  else if (c =? 0x3E)%N then code_units "&gt;"
  else [c].

(** [escapeHtml(text)]: [text] becomes the text content of a new [div],
    whose [innerHTML] is the result. *)
Definition escapeHtml (s : JsString) : JsString :=
  concat (escape_code_unit <$> s).

(** An [li] element: what [createTaskElement] writes into it. *)
Record Element : Type := mkElement {
  className : JsString;
  innerHTML : JsString
}.

Inductive Dialog : Type :=
  | Alert (message : JsString)
  | Confirm (message : JsString).

Record Page : Type := mkPage {
  taskInput_value : JsString;
  deadlineInput_value : JsString;
  taskInput_focused : bool;
  todoList_children : list Element;
  todoList_display : JsString;
  emptyState_display : JsString;
  totalTasks_textContent : JsString;
  completedTasks_textContent : JsString;
  remainingTasks_textContent : JsString;
  clearCompleted_disabled : bool;
  dialogs : list Dialog
}.

Definition set_taskInput_value (v : JsString) (p : Page) : Page :=
  mkPage v (deadlineInput_value p) (taskInput_focused p)
    (todoList_children p) (todoList_display p) (emptyState_display p)
    (totalTasks_textContent p) (completedTasks_textContent p)
    (remainingTasks_textContent p) (clearCompleted_disabled p) (dialogs p).

Definition set_deadlineInput_value (v : JsString) (p : Page) : Page :=
  mkPage (taskInput_value p) v (taskInput_focused p)
    (todoList_children p) (todoList_display p) (emptyState_display p)
    (totalTasks_textContent p) (completedTasks_textContent p)
    (remainingTasks_textContent p) (clearCompleted_disabled p) (dialogs p).

Definition set_taskInput_focused (b : bool) (p : Page) : Page :=
  mkPage (taskInput_value p) (deadlineInput_value p) b
    (todoList_children p) (todoList_display p) (emptyState_display p)
    (totalTasks_textContent p) (completedTasks_textContent p)
    (remainingTasks_textContent p) (clearCompleted_disabled p) (dialogs p).

Definition set_todoList_children (l : list Element) (p : Page) : Page :=
  mkPage (taskInput_value p) (deadlineInput_value p) (taskInput_focused p)
    l (todoList_display p) (emptyState_display p)
    (totalTasks_textContent p) (completedTasks_textContent p)
    (remainingTasks_textContent p) (clearCompleted_disabled p) (dialogs p).

Definition set_displays (todoList emptyState : JsString) (p : Page) : Page :=
  mkPage (taskInput_value p) (deadlineInput_value p) (taskInput_focused p)
    (todoList_children p) todoList emptyState
    (totalTasks_textContent p) (completedTasks_textContent p)
    (remainingTasks_textContent p) (clearCompleted_disabled p) (dialogs p).

Definition set_counters (total completed remaining : JsString)
    (disabled : bool) (p : Page) : Page :=
  mkPage (taskInput_value p) (deadlineInput_value p) (taskInput_focused p)
    (todoList_children p) (todoList_display p) (emptyState_display p)
    total completed remaining disabled (dialogs p).

Definition add_dialog (d : Dialog) (p : Page) : Page :=
  mkPage (taskInput_value p) (deadlineInput_value p) (taskInput_focused p)
    (todoList_children p) (todoList_display p) (emptyState_display p)
    (totalTasks_textContent p) (completedTasks_textContent p)
    (remainingTasks_textContent p) (clearCompleted_disabled p)
    (dialogs p ++ [d]).

(** A method of the view changes the page and the world; an exception
    leaves both as they are at the throw. *)
Definition Ui (A : Type) : Type :=
  Page → World → option (Completion A * Page * World).

#[export] Instance Ui_ret : MRet Ui := λ A a p w, Some (Normal a, p, w).

#[export] Instance Ui_bind : MBind Ui := λ A B f m p w,
  match m p w with
  | Some (Normal a, p', w') => f a p' w'
  | Some (Throw e, p', w') => Some (Throw e, p', w')
  | None => None
  end.

(** A call into the manager. *)
Definition call {A} (m : Js A) : Ui A := λ p w,
  match m w with
  | Some (c, w') => Some (c, p, w')
  | None => None
  end.

Definition read_page {A} (f : Page → A) : Ui A :=
  λ p w, Some (Normal (f p), p, w).

Definition write_page (f : Page → Page) : Ui unit :=
  λ p w, Some (Normal tt, f p, w).

(** [try { m } catch (error) { h }] *)
Definition try_catch {A} (m : Ui A) (h : JsError → Ui A) : Ui A := λ p w,
  match m p w with
  | Some (Throw e, p', w') => h e p' w'
  | r => r
  end.

(** [alert(message)] *)
Definition alert (message : JsString) : Ui unit :=
  write_page (add_dialog (Alert message)).

(** [confirm(message)], with the answer the user gives. *)
Definition confirm (message : JsString) (answer : bool) : Ui bool :=
  write_page (add_dialog (Confirm message));; mret answer.

(** [a || b] *)
Definition js_or (a b : JsValue) : JsValue := if truthy a then a else b.

Definition alert_message : JsString :=
  concat [ code_units "Vui l"; [0x00F2]%N; code_units "ng nh"; [0x1EAD]%N;
           code_units "p n"; [0x1ED9]%N; code_units "i dung c"; [0x00F4]%N;
           code_units "ng vi"; [0x1EC7]%N; code_units "c!" ].

Definition confirm_message : JsString :=
  concat [ code_units "B"; [0x1EA1]%N; code_units "n c"; [0x00F3]%N;
           code_units " ch"; [0x1EAF]%N; code_units "c mu"; [0x1ED1]%N;
           code_units "n x"; [0x00F3]%N; code_units "a t"; [0x1EA5]%N;
           code_units "t c"; [0x1EA3]%N; code_units " c"; [0x00E1]%N;
           code_units "c c"; [0x00F4]%N; code_units "ng vi"; [0x1EC7]%N;
           code_units "c "; [0x0111; 0x00E3]%N; code_units " ho";
           [0x00E0]%N; code_units "n th"; [0x00E0]%N; code_units "nh?" ].

(** [toLocaleString('vi-VN', {day: '2-digit', month: '2-digit',
    year: 'numeric', hour: '2-digit', minute: '2-digit'})], which
    depends on the engine's locale data. *)
Variable toLocaleString : Date → JsString.

Definition getFormattedCreatedDate (t : Task) : JsString :=
  toLocaleString (createdAt t).

(** [getFormattedDeadline()]; [None] is [null]. *)
Definition getFormattedDeadline (t : Task) : option JsString :=
  match deadline t with
  | None => None
  | Some d => Some (toLocaleString d)
  end.

(** A value in a template; [null] reads "null". *)
Definition in_template (v : option JsString) : JsString :=
  default (code_units "null") v.

(** [createTaskElement(task)] *)
Definition createTaskElement (now : Z) (task : Task) : Element :=
  let itemClass := code_units "todo-item" in
  let itemClass :=
    if completed task then itemClass ++ code_units " completed"
    else if isOverdue now task then itemClass ++ code_units " overdue"
    else if isDueSoon now task then itemClass ++ code_units " due-soon"
    else itemClass in
  let deadlineHtml :=
    match deadline task with
    | Some _ =>
        concat
          [ code_units "<span class="; dq; code_units "task-deadline ";
            (if isOverdue now task then code_units "overdue"
             else if isDueSoon now task then code_units "due-soon"
             else []);
            dq; code_units ">"; nl;
            code_units "                "; [0x0110; 0x1EBF]%N;
            code_units "n: "; in_template (getFormattedDeadline task); nl;
            code_units "            </span>" ]
    | None => []
    end in
  mkElement itemClass
    (concat
       [ nl;
         code_units "            <input type="; dq; code_units "checkbox"; dq;
         code_units " class="; dq; code_units "task-checkbox"; dq;
         code_units " ";
         (if completed task then code_units "checked" else []); nl;
         code_units "                   onchange="; dq;
         code_units "app.handleToggleTask("; number_to_string (id task);
         code_units ")"; dq; code_units ">"; nl;
         code_units "            <div class="; dq; code_units "task-content";
         dq; code_units ">"; nl;
         code_units "                <div class="; dq;
         code_units "task-text"; dq; code_units ">";
         escapeHtml (text task); code_units "</div>"; nl;
         code_units "                <div class="; dq;
         code_units "task-meta"; dq; code_units ">"; nl;
         code_units "                    <span class="; dq;
         code_units "task-created"; dq; code_units "> T"; [0x1EEB]%N;
         code_units ": "; getFormattedCreatedDate task;
         code_units "</span>"; nl;
         code_units "                    "; deadlineHtml; nl;
         code_units "                </div>"; nl;
         code_units "            </div>"; nl;
         code_units "            <button class="; dq;
         code_units "delete-btn"; dq; code_units " onclick="; dq;
         code_units "app.handleDeleteTask("; number_to_string (id task);
         code_units ")"; dq; code_units ">X"; [0x00F3]%N;
         code_units "a</button>"; nl;
         code_units "        " ]).

Definition append_child (li : Element) (p : Page) : Page :=
  set_todoList_children (todoList_children p ++ [li]) p.

(** [tasks.forEach(task => ...)]: for each task of the array, in its
    order, an element is made and appended to the list. *)
Fixpoint append_items (now : Z) (l : list ref) : Ui unit :=
  match l with
  | [] => mret tt
  | r :: l' =>
      task ← call (read_task r);
      let li := createTaskElement now task in
      write_page (append_child li);;
      append_items now l'
  end.

Definition renderTasks (now : Z) : Ui unit :=
  write_page (set_todoList_children []);;
  a ← call getAllTasks;
  l ← call (read_array a);
  append_items now l.

Definition updateStats (now : Z) : Ui unit :=
  stats ← call (getStats now);
  write_page
    (set_counters
       (number_to_string (Stats.total stats))
       (number_to_string (Stats.completed stats))
       (number_to_string (Stats.remaining stats))
       (Stats.completed stats =? 0)).

Definition updateEmptyState : Ui unit :=
  a ← call getAllTasks;
  l ← call (read_array a);
  let hasTasks := 0 <? Z.of_nat (length l) in
  write_page
    (set_displays
       (if hasTasks then code_units "block" else code_units "none")
       (if hasTasks then code_units "none" else code_units "block")).

Definition updateUI (now : Z) : Ui unit :=
  renderTasks now;;
  updateStats now;;
  updateEmptyState.

Definition handleAddTask (now : Z) : Ui unit :=
  text ← read_page taskInput_value;
  deadline ← read_page deadlineInput_value;
  try_catch
    (call (addTask now text (js_or (JsText deadline) JsNull));;
     write_page (set_taskInput_value []);;
     write_page (set_deadlineInput_value []);;
     updateUI now;;
     write_page (set_taskInput_focused true))
    (λ error, alert alert_message).

Definition handleDeleteTask (now : Z) (i : Z) : Ui unit :=
  call (deleteTask i);;
  updateUI now.

Definition handleToggleTask (now : Z) (i : Z) : Ui unit :=
  call (toggleTask i);;
  updateUI now.

Definition handleClearCompleted (now : Z) (answer : bool) : Ui unit :=
  confirm confirm_message answer ≫= λ ok : bool,
  if ok
  then call clearCompleted;; updateUI now
  else mret tt.

(** [new TodoApp()] on a page: a new manager and a view of it. *)
Definition new_TodoApp (now : Z) (p : Page) : option (Page * World) :=
  match updateUI now p new_TaskManager with
  | Some (_, p', w') => Some (p', w')
  | None => None
  end.

(** What happens on the page: the user edits one of the inputs, the
    page has loaded, or one of the bound handlers runs: a click on the
    add button or Enter in the text input, a click on the delete button
    or the checkbox of an item, a click on the clear button with the
    answer to its question. *)
Inductive Event : Type :=
  | InputText (s : JsString)
  | InputDeadline (s : JsString)
  | WindowLoad
  | AddClicked
  | DeleteClicked (i : Z)
  | CheckboxChanged (i : Z)
  | ClearClicked (answer : bool).

(** A disabled button gets no click. *)
Definition dispatch (now : Z) (e : Event) : Ui unit :=
  match e with
  | InputText s => write_page (set_taskInput_value s)
  | InputDeadline s => write_page (set_deadlineInput_value s)
  | WindowLoad => write_page (set_taskInput_focused true)
  | AddClicked => handleAddTask now
  | DeleteClicked i => handleDeleteTask now i
  | CheckboxChanged i => handleToggleTask now i
  | ClearClicked answer =>
      read_page clearCompleted_disabled ≫= λ disabled : bool,
      if disabled then mret tt else handleClearCompleted now answer
  end.

Fixpoint ui_run (events : list (Z * Event)) (p : Page) (w : World)
  : option (Page * World) :=
  match events with
  | [] => Some (p, w)
  | (now, e) :: rest =>
      match dispatch now e p w with
      | Some (_, p', w') => ui_run rest p' w'
      | None => None
      end
  end.

(** The world after one [getAllTasks()], and after the two of
    [updateUI()], for the elements [l] of [this.tasks]. *)
Definition copied (l : list ref) (w : World) : World :=
  set_array_heap (array_heap w ++ [l]) w.

Definition refreshed (l : list ref) (w : World) : World :=
  copied l (copied l w).

(** The page after [updateUI()] at time [now], for the tasks [ts] of
    the collection. *)
Definition shown (now : Z) (ts : list Task) (p : Page) : Page :=
  let total := Z.of_nat (length ts) in
  let completed := Z.of_nat (length (filter (λ t, completed t) ts)) in
  let hasTasks := 0 <? Z.of_nat (length ts) in
  set_displays
    (if hasTasks then code_units "block" else code_units "none")
    (if hasTasks then code_units "none" else code_units "block")
    (set_counters
       (number_to_string total)
       (number_to_string completed)
       (number_to_string (total - completed))
       (completed =? 0)
       (set_todoList_children (createTaskElement now <$> ts) p)).

(** The page shows the manager's tasks as [updateUI()] left them at some
    time. *)
Definition in_sync (p : Page) (w : World) : Prop :=
  ∃ now ts, collection w = Some ts ∧ shown now ts p = p.

(** The calls into the manager that [updateUI()] makes, and those an
    event leads to on a page. *)
Definition refresh_calls (now : Z) : list (Z * Call) :=
  [ (now, GetAllTasks); (now, GetStats); (now, GetAllTasks) ].

Definition calls_of (now : Z) (e : Event) (p : Page) : list (Z * Call) :=
  match e with
  | InputText _ | InputDeadline _ | WindowLoad => []
  | AddClicked =>
      let c := AddTask (taskInput_value p)
                 (js_or (JsText (deadlineInput_value p)) JsNull) in
      if accepted (now, c) then (now, c) :: refresh_calls now
      else [(now, c)]
  | DeleteClicked i => (now, DeleteTask i) :: refresh_calls now
  | CheckboxChanged i => (now, ToggleTask i) :: refresh_calls now
  | ClearClicked answer =>
      if clearCompleted_disabled p then []
      else if answer then (now, ClearCompleted) :: refresh_calls now
      else []
  end.

(** ** Sample data *)

(** A [Date.parse] that knows one string. *)
Definition sample_parse (s : JsString) : JsNumber :=
  if bool_decide (s = code_units "1970-01-02T00:00")
  then Finite (inject_Z 86400000)
  else NaN.

(** A manager with three tasks: one completed, one not completed whose
    deadline has passed at time 100000, one without a deadline. *)
Definition sample_world : World :=
  mkWorld
    [ mkTask 1 (code_units "pay rent") true (Some 1000) (Some (Some 5000));
      mkTask 2 (code_units "call Ann") false (Some 2000) (Some (Some 90000));
      mkTask 3 (code_units "read") false (Some 3000) None ]
    [ [0; 1; 2]%nat ]
    (mkTaskManager 0%nat 4).

(** A session with a rejected text, a toggle and a deletion, and the
    world it reaches from a new manager. *)
Definition sample_session : list (Z * Call) :=
  [ (10, AddTask (code_units " a ") JsNull);
    (20, AddTask (code_units "   ") JsNull);
    (30, AddTask (code_units "b") (JsText (code_units "1970-01-02T00:00")));
    (40, ToggleTask 1);
    (50, DeleteTask 1) ].

Definition sample_reached : World :=
  mkWorld
    [ mkTask 1 (code_units "a") true (Some 10) None;
      mkTask 2 (code_units "b") false (Some 30) (Some (Some 86400000)) ]
    [ [0; 1]%nat; [1%nat] ]
    (mkTaskManager 1%nat 3).

(** A stand-in for the locale's format, and a page with a text typed
    in. *)
Definition sample_format (d : Date) : JsString :=
  match d with
  | Some z => number_to_string z
  | None => code_units "Invalid Date"
  end.

Definition sample_page : Page :=
  mkPage (code_units " buy milk ") [] false [] [] [] [] [] [] false [].

(** ** The deadline predicates *)

Lemma hoursDiff_window (timeDiff : Z) :
  let hoursDiff := (inject_Z timeDiff / inject_Z ms_per_hour)%Q in
  Qlt_bool 0 hoursDiff && Qle_bool hoursDiff 24 = true
  ↔ 0 < timeDiff ≤ 24 * 3600000.
Proof.
  change ms_per_hour with 3600000.
  unfold Qlt_bool, Qle_bool, Qdiv, Qmult, Qinv, inject_Z.
  cbn [Qnum Qden].
  rewrite andb_true_iff, Z.ltb_lt, Z.leb_le. lia.
Qed.

Lemma isOverdue_true (now : Z) (t : Task) :
  isOverdue now t = true
  ↔ deadline t ≠ None ∧ completed t = false
    ∧ ∃ d, deadline t = Some (Some d) ∧ d < now.
Proof.
  unfold isOverdue, date_gt.
  destruct (deadline t) as [[d|]|], (completed t); rewrite ?Z.ltb_lt;
    (split; [intros H | intros (H1 & H2 & x & H3 & H4)]);
    try discriminate; try congruence.
  split; [done | split; [done | by exists d]].
Qed.

Lemma isDueSoon_true (now : Z) (t : Task) :
  isDueSoon now t = true
  ↔ deadline t ≠ None ∧ completed t = false
    ∧ ∃ d, deadline t = Some (Some d) ∧ 0 < d - now ≤ 24 * 3600000.
Proof.
  unfold isDueSoon, date_diff.
  destruct (deadline t) as [[d|]|], (completed t);
    rewrite ?hoursDiff_window;
    (split; [intros H | intros (H1 & H2 & x & H3 & H4)]);
    try discriminate; try congruence.
  split; [done | split; [done | by exists d]].
Qed.

(** C4.  [isOverdue()] is true exactly when the task has a deadline, is
    not completed and the current time is strictly after the deadline; a
    task without a deadline is never overdue, and neither is a completed
    one. *)
Theorem isOverdue_iff (now : Z) (t : Task) :
  (isOverdue now t = true
   ↔ deadline t ≠ None ∧ completed t = false
     ∧ ∃ d, deadline t = Some (Some d) ∧ d < now)
  ∧ (∀ i s b c, isOverdue now (mkTask i s b c None) = false)
  ∧ (∀ i s c d, isOverdue now (mkTask i s true c d) = false).
Proof.
  split; [apply isOverdue_true | split].
  - done.
  - intros i s c [d|]; done.
Qed.

(** C3.  [isDueSoon()] is true exactly when the task has a deadline, is
    not completed and the time left until the deadline is more than 0 and
    at most 24 hours; so no task is overdue and due soon at one time. *)
Theorem isDueSoon_iff (now : Z) (t : Task) :
  (isDueSoon now t = true
   ↔ deadline t ≠ None ∧ completed t = false
     ∧ ∃ d, deadline t = Some (Some d) ∧ 0 < d - now ≤ 24 * 3600000)
  ∧ ¬ (isOverdue now t = true ∧ isDueSoon now t = true).
Proof.
  split; [apply isDueSoon_true |].
  intros [Ho Hs]. apply isDueSoon_true in Hs as (_ & _ & d & Hd & Hlt).
  apply isOverdue_true in Ho as (_ & _ & d' & Hd' & Hgt).
  assert (d' = d) by congruence. lia.
Qed.

(** ** Running the primitives *)

Lemma bind_normal {A B} (m : Js A) (f : A → Js B) w a w' :
  m w = Some (Normal a, w') → (m ≫= f) w = f a w'.
Proof. unfold mbind, Js_bind. by intros ->. Qed.

Lemma bind_throw {A B} (m : Js A) (f : A → Js B) w e w' :
  m w = Some (Throw e, w') → (m ≫= f) w = Some (Throw e, w').
Proof. unfold mbind, Js_bind. by intros ->. Qed.

Lemma read_array_eq w a l :
  array_heap w !! a = Some l → read_array a w = Some (Normal l, w).
Proof. unfold read_array, lift. by intros ->. Qed.

Lemma read_task_eq w r t :
  task_heap w !! r = Some t → read_task r w = Some (Normal t, w).
Proof. unfold read_task, lift. by intros ->. Qed.

Lemma write_task_eq w r t :
  (r < length (task_heap w))%nat →
  write_task r t w
  = Some (Normal tt, set_task_heap (<[r := t]> (task_heap w)) w).
Proof. unfold write_task. intros H. by rewrite decide_True. Qed.

(** ** [addTask] *)

Lemma addTask_throw now s d w :
  trim s = [] →
  addTask now s d w = Some (Throw (Error "Task text cannot be empty"), w).
Proof. unfold addTask. intros H. by rewrite bool_decide_eq_true_2. Qed.

Lemma addTask_normal now s d w l :
  trim s ≠ [] →
  task_refs w = Some l →
  addTask now s d w
  = Some (Normal (length (task_heap w)),
          mkWorld
            (task_heap w ++ [made_task now (nextId (this w)) s d])
            (<[tasks (this w) := l ++ [length (task_heap w)]]> (array_heap w))
            (mkTaskManager (tasks (this w)) (nextId (this w) + 1))).
Proof.
  unfold addTask, task_refs. intros Hs Hl.
  rewrite bool_decide_eq_false_2 by done.
  unfold mbind, Js_bind, post_increment_nextId, new_Task, alloc_task,
    get_tasks, array_push, lift. cbn.
  unfold mbind, Js_bind, read_array, lift. cbn. rewrite Hl.
  unfold write_array. cbn.
  rewrite decide_True by (by eapply lookup_lt_Some).
  unfold made_task. by destruct d.
Qed.

(** ** Arrays of task references *)

Lemma refs_ok_lookup w l r :
  refs_ok w l → r ∈ l → is_Some (task_heap w !! r).
Proof.
  unfold refs_ok. rewrite Forall_forall. intros H Hr.
  apply lookup_lt_is_Some. by apply H.
Qed.

Lemma refs_ok_cons w r l :
  refs_ok w (r :: l) ↔ (r < length (task_heap w))%nat ∧ refs_ok w l.
Proof. unfold refs_ok. by rewrite Forall_cons. Qed.

Lemma select_eq p w l :
  refs_ok w l →
  select p l w = Some (Normal (filter (λ r, holds p w r) l), w).
Proof.
  induction l as [|r l IH]; [done |].
  rewrite refs_ok_cons. intros [Hr Hl].
  destruct (lookup_lt_is_Some_2 _ _ Hr) as [t Ht].
  cbn [select]. rewrite (bind_normal _ _ _ _ _ (read_task_eq _ _ _ Ht)).
  rewrite (bind_normal _ _ _ _ _ (IH Hl)).
  assert (holds p w r = p t) as Hh by (unfold holds; by rewrite Ht).
  destruct (p t) eqn:Hp.
  - rewrite filter_cons_True; [done | by rewrite Hh].
  - rewrite filter_cons_False; [done | rewrite Hh; by intros []].
Qed.

Lemma array_find_in_eq p w l :
  refs_ok w l →
  array_find_in p l w = Some (Normal (List.find (holds p w) l), w).
Proof.
  induction l as [|r l IH]; [done |].
  rewrite refs_ok_cons. intros [Hr Hl].
  destruct (lookup_lt_is_Some_2 _ _ Hr) as [t Ht].
  cbn [array_find_in List.find].
  rewrite (bind_normal _ _ _ _ _ (read_task_eq _ _ _ Ht)).
  assert (holds p w r = p t) as -> by (unfold holds; by rewrite Ht).
  destruct (p t); [done | by apply IH].
Qed.

Lemma deref_all_is_Some w l : refs_ok w l → is_Some (deref_all w l).
Proof.
  intros H. apply mapM_is_Some. unfold refs_ok in H.
  eapply Forall_impl; [exact H |]. intros r Hr. by apply lookup_lt_is_Some.
Qed.

Lemma deref_all_refs_ok w l ts : deref_all w l = Some ts → refs_ok w l.
Proof.
  intros H. assert (is_Some (deref_all w l)) as Hs by (by rewrite H).
  apply mapM_is_Some in Hs. unfold refs_ok.
  eapply Forall_impl; [exact Hs |]. intros r Hr. by apply lookup_lt_is_Some.
Qed.

Lemma deref_all_filter p w l ts :
  deref_all w l = Some ts →
  deref_all w (filter (λ r, holds p w r) l) = Some (filter (λ t, p t) ts).
Proof.
  unfold deref_all. rewrite !mapM_Some.
  induction 1 as [|r t l ts Ht _ IH]; [constructor |].
  assert (holds p w r = p t) as Hh by (unfold holds; by rewrite Ht).
  destruct (p t) eqn:Hp.
  - rewrite !filter_cons_True by (by rewrite ?Hh, ?Hp). by constructor.
  - by rewrite !filter_cons_False by (rewrite ?Hh, ?Hp; by intros []).
Qed.

Lemma deref_all_app w l1 l2 ts1 ts2 :
  deref_all w l1 = Some ts1 → deref_all w l2 = Some ts2 →
  deref_all w (l1 ++ l2) = Some (ts1 ++ ts2).
Proof.
  unfold deref_all. rewrite !mapM_Some. apply Forall2_app.
Qed.

(** The store of tasks decides what an array of references stands
    for. *)
Lemma deref_all_heap w w' l :
  task_heap w' = task_heap w → deref_all w' l = deref_all w l.
Proof. unfold deref_all. by intros ->. Qed.

(** ** Well-formed worlds *)

Lemma refs_ok_mono w w' l :
  (length (task_heap w) ≤ length (task_heap w'))%nat →
  refs_ok w l → refs_ok w' l.
Proof.
  unfold refs_ok. intros Hle H. eapply Forall_impl; [exact H |].
  cbn. intros r Hr. lia.
Qed.

Lemma wf_task_refs w :
  wf w → ∃ l, task_refs w = Some l ∧ refs_ok w l.
Proof.
  intros [Ht Ha]. destruct (lookup_lt_is_Some_2 _ _ Ht) as [l Hl].
  exists l. split; [done |].
  rewrite Forall_forall in Ha. apply Ha. by eapply list_elem_of_lookup_2.
Qed.

Lemma wf_collection w : wf w → is_Some (collection w).
Proof.
  intros Hwf. destruct (wf_task_refs w Hwf) as (l & Hl & Hok).
  unfold collection. rewrite Hl. cbn. by apply deref_all_is_Some.
Qed.

Lemma wf_new_TaskManager : wf new_TaskManager.
Proof.
  split; cbn; [lia |]. repeat constructor.
Qed.

Lemma wf_added w l t :
  wf w → task_refs w = Some l →
  wf (mkWorld (task_heap w ++ [t])
        (<[tasks (this w) := l ++ [length (task_heap w)]]> (array_heap w))
        (mkTaskManager (tasks (this w)) (nextId (this w) + 1))).
Proof.
  intros Hwf Hl. destruct (wf_task_refs w Hwf) as (l' & Hl' & Hok).
  assert (l' = l) as -> by congruence.
  destruct Hwf as [Ht Ha]. split; cbn.
  - by rewrite length_insert.
  - apply Forall_insert.
    + eapply Forall_impl; [exact Ha |]. intros k.
      apply refs_ok_mono. cbn. rewrite length_app. lia.
    + unfold refs_ok in *. cbn. rewrite length_app. cbn.
      apply Forall_app. split.
      * eapply Forall_impl; [exact Hok |]. cbn. intros r Hr. lia.
      * repeat constructor. lia.
Qed.

Lemma wf_filtered p w l :
  wf w → task_refs w = Some l → wf (filtered p l w).
Proof.
  intros Hwf Hl. destruct (wf_task_refs w Hwf) as (l' & Hl' & Hok).
  assert (l' = l) as -> by congruence.
  destruct Hwf as [Ht Ha]. split; cbn.
  - rewrite length_app. cbn. lia.
  - apply Forall_app. split; [exact Ha |].
    repeat constructor. unfold refs_ok in *. cbn.
    rewrite Forall_forall in Hok. apply Forall_forall. intros r Hr.
    apply list_elem_of_filter in Hr as [_ Hr]. by apply Hok.
Qed.

Lemma wf_altered w r f :
  wf w → wf (set_task_heap (alter f r (task_heap w)) w).
Proof.
  intros [Ht Ha]. split; cbn; [done |].
  eapply Forall_impl; [exact Ha |]. intros l.
  apply refs_ok_mono. cbn. by rewrite length_alter.
Qed.

Lemma wf_copied w l :
  wf w → task_refs w = Some l →
  wf (set_array_heap (array_heap w ++ [l]) w).
Proof.
  intros Hwf Hl. destruct (wf_task_refs w Hwf) as (l' & Hl' & Hok).
  assert (l' = l) as -> by congruence.
  destruct Hwf as [Ht Ha]. split; cbn.
  - rewrite length_app. cbn. lia.
  - apply Forall_app. split; [exact Ha |]. by repeat constructor.
Qed.

(** ** The other operations, step by step *)

Lemma filter_tasks_eq p w l :
  task_refs w = Some l → refs_ok w l →
  (a ← get_tasks; b ← array_filter p a; set_tasks b) w
  = Some (Normal tt, filtered p l w).
Proof.
  intros Hl Hok. unfold get_tasks.
  erewrite bind_normal by (unfold lift; reflexivity).
  erewrite bind_normal; cycle 1.
  { unfold array_filter.
    erewrite bind_normal by (by apply read_array_eq).
    erewrite bind_normal by (by apply select_eq).
    reflexivity. }
  reflexivity.
Qed.

Lemma deleteTask_eq i w l :
  task_refs w = Some l → refs_ok w l →
  deleteTask i w
  = Some (Normal tt, filtered (λ task, negb (id task =? i)) l w).
Proof. apply filter_tasks_eq. Qed.

Lemma clearCompleted_eq w l :
  task_refs w = Some l → refs_ok w l →
  clearCompleted w
  = Some (Normal tt, filtered (λ task, negb (completed task)) l w).
Proof. apply filter_tasks_eq. Qed.

Lemma toggleTask_found i w l r t :
  task_refs w = Some l → refs_ok w l →
  List.find (holds (λ task, id task =? i) w) l = Some r →
  task_heap w !! r = Some t →
  toggleTask i w
  = Some (Normal tt, set_task_heap (alter toggle r (task_heap w)) w).
Proof.
  intros Hl Hok Hfind Ht.
  replace (alter toggle r (task_heap w))
    with (<[r := toggle t]> (task_heap w))
    by (rewrite list_insert_alter; apply list_alter_ext; [| done];
        intros x Hx; congruence).
  unfold toggleTask, get_tasks.
  erewrite bind_normal by (unfold lift; reflexivity).
  unfold array_find.
  erewrite bind_normal; [|
    erewrite bind_normal by (by apply read_array_eq);
    by apply array_find_in_eq].
  rewrite Hfind.
  erewrite bind_normal by (by apply read_task_eq).
  apply write_task_eq. by eapply lookup_lt_Some.
Qed.

Lemma toggleTask_absent i w l :
  task_refs w = Some l → refs_ok w l →
  List.find (holds (λ task, id task =? i) w) l = None →
  toggleTask i w = Some (Normal tt, w).
Proof.
  intros Hl Hok Hfind. unfold toggleTask, get_tasks.
  erewrite bind_normal by (unfold lift; reflexivity).
  unfold array_find.
  erewrite bind_normal; [|
    erewrite bind_normal by (by apply read_array_eq);
    by apply array_find_in_eq].
  by rewrite Hfind.
Qed.

Lemma getAllTasks_eq w l :
  task_refs w = Some l →
  getAllTasks w
  = Some (Normal (length (array_heap w)),
          set_array_heap (array_heap w ++ [l]) w).
Proof.
  intros Hl. unfold getAllTasks, get_tasks.
  erewrite bind_normal by (unfold lift; reflexivity).
  erewrite bind_normal by (by apply read_array_eq).
  reflexivity.
Qed.

Lemma count_where_eq p w a l ts :
  array_heap w !! a = Some l → deref_all w l = Some ts →
  count_where p a w
  = Some (Normal (Z.of_nat (length (filter (λ t, p t) ts))), w).
Proof.
  intros Hl Hts. unfold count_where.
  erewrite bind_normal by (by apply read_array_eq).
  erewrite bind_normal
    by (apply select_eq; by eapply deref_all_refs_ok).
  pose proof (deref_all_filter p w l ts Hts) as Hf.
  apply length_mapM in Hf. by rewrite Hf.
Qed.

Lemma getStats_eq now w ts :
  collection w = Some ts →
  getStats now w
  = Some (Normal
            (Stats.mk
               (Z.of_nat (length ts))
               (Z.of_nat (length (filter (λ t, completed t) ts)))
               (Z.of_nat (length ts)
                - Z.of_nat (length (filter (λ t, completed t) ts)))
               (Z.of_nat (length (filter (λ t, isOverdue now t) ts)))
               (Z.of_nat (length (filter (λ t, isDueSoon now t) ts)))),
          w).
Proof.
  unfold collection, task_refs.
  destruct (array_heap w !! tasks (this w)) as [l|] eqn:Hl; [| done].
  cbn. intros Hts. unfold getStats, get_tasks.
  erewrite bind_normal by (unfold lift; reflexivity).
  erewrite bind_normal by (by apply read_array_eq).
  erewrite bind_normal by (by eapply count_where_eq).
  erewrite bind_normal by (by eapply count_where_eq).
  erewrite bind_normal by (by eapply count_where_eq).
  apply length_mapM in Hts. by rewrite Hts.
Qed.

(** ** The tasks collection after an operation *)

Lemma deref_all_grow w w' l ts k :
  task_heap w' = task_heap w ++ k →
  deref_all w l = Some ts → deref_all w' l = Some ts.
Proof.
  unfold deref_all. rewrite !mapM_Some. intros -> H.
  eapply Forall2_impl; [exact H |]. intros r t. apply lookup_app_l_Some.
Qed.

Lemma deref_all_elem w l ts r :
  deref_all w l = Some ts → r ∈ l →
  ∃ t, task_heap w !! r = Some t ∧ t ∈ ts.
Proof.
  unfold deref_all. rewrite mapM_Some. intros H Hr.
  apply list_elem_of_lookup in Hr as [n Hn].
  destruct (Forall2_lookup_l _ _ _ _ _ H Hn) as (t & Ht & Hrt).
  exists t. split; [done |]. by eapply list_elem_of_lookup_2.
Qed.

Lemma filter_all {A} (P : A → Prop) `{∀ x, Decision (P x)} (l : list A) :
  (∀ x, x ∈ l → P x) → filter P l = l.
Proof.
  induction l as [|x l IH]; [done |]. intros Hall.
  rewrite filter_cons_True by (apply Hall; left).
  f_equal. apply IH. intros y Hy. apply Hall. by right.
Qed.

Lemma find_absent {A} (f : A → bool) (l : list A) :
  (∀ x, x ∈ l → f x = false) → List.find f l = None.
Proof.
  induction l as [|x l IH]; [done |]. intros Hall. cbn.
  rewrite (Hall x) by left. apply IH. intros y Hy. apply Hall. by right.
Qed.

Lemma task_refs_added w l t :
  wf w →
  task_refs
    (mkWorld (task_heap w ++ [t])
       (<[tasks (this w) := l ++ [length (task_heap w)]]> (array_heap w))
       (mkTaskManager (tasks (this w)) (nextId (this w) + 1)))
  = Some (l ++ [length (task_heap w)]).
Proof.
  intros [Ht _]. unfold task_refs. cbn. by apply list_lookup_insert_eq.
Qed.

Lemma collection_added w l ts t :
  wf w → task_refs w = Some l → deref_all w l = Some ts →
  collection
    (mkWorld (task_heap w ++ [t])
       (<[tasks (this w) := l ++ [length (task_heap w)]]> (array_heap w))
       (mkTaskManager (tasks (this w)) (nextId (this w) + 1)))
  = Some (ts ++ [t]).
Proof.
  intros Hwf Hl Hts. unfold collection.
  rewrite task_refs_added by done. cbn.
  apply deref_all_app.
  - by eapply deref_all_grow.
  - unfold deref_all. cbn. by rewrite list_lookup_middle.
Qed.

Lemma task_refs_filtered p w l :
  task_refs (filtered p l w) = Some (filter (λ r, holds p w r) l).
Proof. unfold task_refs, filtered. cbn. by apply list_lookup_middle. Qed.

Lemma collection_filtered p w l ts :
  deref_all w l = Some ts →
  collection (filtered p l w) = Some (filter (λ t, p t) ts).
Proof.
  intros Hts. unfold collection. rewrite task_refs_filtered. cbn.
  rewrite (deref_all_heap w) by done. by apply deref_all_filter.
Qed.

Lemma collection_split w ts :
  collection w = Some ts →
  ∃ l, task_refs w = Some l ∧ deref_all w l = Some ts.
Proof.
  unfold collection. destruct (task_refs w) as [l|]; [| done].
  cbn. intros H. by exists l.
Qed.

(** ** The claims on single operations *)

(** C1.  [addTask] with a text whose trim is empty throws the error
    'Task text cannot be empty', the only one the manager raises, and the
    world after the call is the world before it: [this.tasks] and
    [nextId] are what they were. *)
Theorem addTask_blank_text (now : Z) (s : JsString) (d : JsValue) (w : World) :
  trim s = [] →
  addTask now s d w = Some (Throw (Error "Task text cannot be empty"), w).
Proof. apply addTask_throw. Qed.

(** C2.  [addTask] with a text whose trim is not empty returns a new
    task: its text is the trimmed text, it is not completed, its id is
    [nextId] as it was before the call; [nextId] has gone up by one and
    the task is the last of the tasks collection, after the tasks that
    were there. *)
Theorem addTask_creates (now : Z) (s : JsString) (d : JsValue) (w : World) :
  wf w → trim s ≠ [] →
  ∃ r t w' ts,
    addTask now s d w = Some (Normal r, w')
    ∧ task_heap w' !! r = Some t
    ∧ text t = trim s
    ∧ completed t = false
    ∧ id t = nextId (this w)
    ∧ nextId (this w') = nextId (this w) + 1
    ∧ collection w = Some ts
    ∧ collection w' = Some (ts ++ [t]).
Proof.
  intros Hwf Hs.
  destruct (wf_task_refs w Hwf) as (l & Hl & Hok).
  destruct (deref_all_is_Some w l Hok) as [ts Hts].
  eexists _, (made_task now (nextId (this w)) s d), _, ts.
  split; [by apply addTask_normal |].
  split; [cbn; by rewrite list_lookup_middle |].
  repeat (split; [done |]).
  split.
  - unfold collection. by rewrite Hl.
  - by apply collection_added.
Qed.

(** C10.  The task [addTask] creates has no deadline when the [deadline]
    argument is falsy, as [null], the empty string and 0 are, and such a
    task is not overdue and not due soon at any time, completed or not;
    a truthy argument makes the deadline [new Date(deadline)]. *)
Theorem addTask_deadline (now : Z) (s : JsString) (d : JsValue) (w : World) :
  wf w → trim s ≠ [] →
  ∃ r t w',
    addTask now s d w = Some (Normal r, w')
    ∧ task_heap w' !! r = Some t
    ∧ deadline t = (if truthy d then Some (new_Date d) else None)
    ∧ (truthy d = false →
       ∀ now' b, isOverdue now' (set_completed b t) = false
                 ∧ isDueSoon now' (set_completed b t) = false)
    ∧ truthy JsNull = false
    ∧ truthy (JsText []) = false
    ∧ truthy (JsNumeric (Finite 0)) = false.
Proof.
  intros Hwf Hs.
  destruct (wf_task_refs w Hwf) as (l & Hl & Hok).
  eexists _, (made_task now (nextId (this w)) s d), _.
  split; [by apply addTask_normal |].
  split; [cbn; by rewrite list_lookup_middle |].
  split; [done |].
  split; [| done].
  intros Hd now' b. unfold isOverdue, isDueSoon. cbn. by rewrite Hd.
Qed.

(** C5.  [getStats()] leaves the world as it is and returns [total], the
    size of the tasks collection, [completed], the number of its completed
    tasks, [remaining], their difference, [overdue] and [dueSoon], the
    numbers of its tasks for which [isOverdue()] and [isDueSoon()] hold
    at the current time. *)
Theorem getStats_counts (now : Z) (w : World) :
  wf w →
  ∃ ts st,
    collection w = Some ts
    ∧ getStats now w = Some (Normal st, w)
    ∧ Stats.total st = Z.of_nat (length ts)
    ∧ Stats.completed st
      = Z.of_nat (length (filter (λ t, completed t = true) ts))
    ∧ Stats.remaining st = Stats.total st - Stats.completed st
    ∧ Stats.overdue st
      = Z.of_nat (length (filter (λ t, isOverdue now t = true) ts))
    ∧ Stats.dueSoon st
      = Z.of_nat (length (filter (λ t, isDueSoon now t = true) ts)).
Proof.
  intros Hwf. destruct (wf_collection w Hwf) as [ts Hts].
  eexists ts, _. split; [done |].
  split; [by apply getStats_eq |]. cbn.
  split; [done |].
  assert (∀ p : Task → bool,
    filter (λ t, p t) ts = filter (λ t, p t = true) ts) as Heq.
  { intros p. apply list_filter_iff. intros t. apply Is_true_true. }
  by rewrite !Heq.
Qed.

Lemma holds_filtered p q w l r :
  holds p (filtered q l w) r = holds p w r.
Proof. done. Qed.

Lemma refs_ok_filter w l (P : nat → Prop) `{∀ r, Decision (P r)} :
  refs_ok w l → refs_ok w (filter P l).
Proof.
  unfold refs_ok. rewrite !Forall_forall. intros Hok r Hr.
  apply list_elem_of_filter in Hr as [_ Hr]. by apply Hok.
Qed.

(** C7.  [clearCompleted()] keeps the tasks that are not completed, in
    the order they had, and removes the others; it touches no task
    object and not the counter.  A second call right after the first
    leaves the state of the manager as the first call left it. *)
Theorem clearCompleted_idempotent (w : World) :
  wf w →
  ∃ ts w1 w2,
    collection w = Some ts
    ∧ clearCompleted w = Some (Normal tt, w1)
    ∧ collection w1 = Some (filter (λ t, completed t = false) ts)
    ∧ task_heap w1 = task_heap w
    ∧ nextId (this w1) = nextId (this w)
    ∧ clearCompleted w1 = Some (Normal tt, w2)
    ∧ manager_state w2 = manager_state w1.
Proof.
  intros Hwf.
  destruct (wf_task_refs w Hwf) as (l & Hl & Hok).
  destruct (deref_all_is_Some w l Hok) as [ts Hts].
  set (p := λ task : Task, negb (completed task)).
  exists ts, (filtered p l w),
    (filtered p (filter (λ r, holds p w r) l) (filtered p l w)).
  split; [unfold collection; by rewrite Hl |].
  split; [by apply clearCompleted_eq |].
  split.
  { rewrite (collection_filtered p w l ts Hts). f_equal.
    apply list_filter_iff. intros t. unfold p.
    destruct (completed t); cbn; naive_solver. }
  split; [done |]. split; [done |].
  split.
  { apply clearCompleted_eq; [apply task_refs_filtered |].
    apply (refs_ok_mono w); [done |]. by apply refs_ok_filter. }
  unfold manager_state. rewrite !task_refs_filtered.
  f_equal. f_equal. f_equal.
  apply list_filter_filter_r. intros r Hr. by rewrite holds_filtered.
Qed.

(** C8.  [deleteTask(id)] and [toggleTask(id)] never throw.  After
    [deleteTask(id)], [toggleTask(id)] changes nothing at all.  When no
    task of the collection has the id, [deleteTask(id)] leaves the state
    of the manager as it was (it stores an equal array) and
    [toggleTask(id)] changes nothing at all. *)
Theorem absent_id_no_op (i : Z) (w : World) :
  wf w →
  ∃ ts w1,
    collection w = Some ts
    ∧ deleteTask i w = Some (Normal tt, w1)
    ∧ toggleTask i w1 = Some (Normal tt, w1)
    ∧ (i ∉ id <$> ts →
       manager_state w1 = manager_state w
       ∧ toggleTask i w = Some (Normal tt, w)).
Proof.
  intros Hwf.
  destruct (wf_task_refs w Hwf) as (l & Hl & Hok).
  destruct (deref_all_is_Some w l Hok) as [ts Hts].
  set (p := λ task : Task, negb (id task =? i)).
  exists ts, (filtered p l w).
  split; [unfold collection; by rewrite Hl |].
  split; [by apply deleteTask_eq |].
  split.
  { eapply toggleTask_absent; [apply task_refs_filtered | |].
    - apply (refs_ok_mono w); [done |]. by apply refs_ok_filter.
    - apply find_absent. intros r Hr.
      apply list_elem_of_filter in Hr as [Hr _].
      rewrite holds_filtered. unfold holds, p in *.
      destruct (task_heap w !! r) as [t|]; cbn in *; [| done].
      by destruct (id t =? i). }
  intros Hi.
  assert (∀ r, r ∈ l → holds (λ task, id task =? i) w r = false) as Hno.
  { intros r Hr.
    destruct (deref_all_elem w l ts r Hts Hr) as (t & Ht & Hin).
    unfold holds. rewrite Ht. cbn. apply Z.eqb_neq. intros <-.
    apply Hi. apply list_elem_of_fmap. by exists t. }
  split.
  - unfold manager_state. rewrite task_refs_filtered, Hl. cbn.
    f_equal. f_equal. f_equal. apply filter_all. intros r Hr.
    specialize (Hno r Hr).
    destruct (deref_all_elem w l ts r Hts Hr) as (t & Ht & _).
    unfold holds, p in *. rewrite Ht in *. cbn in *. by rewrite Hno.
  - eapply toggleTask_absent; [done | done |]. by apply find_absent.
Qed.

(** ** Sessions *)

Lemma perform_eq now c w l :
  wf w → task_refs w = Some l →
  perform now c w = Some (outcome now c l w).
Proof.
  intros Hwf Hl. destruct (wf_task_refs w Hwf) as (l' & Hl' & Hok).
  assert (l' = l) as -> by congruence.
  destruct c as [s d|i|i| | |]; cbn [perform outcome].
  - destruct (decide (trim s = [])) as [Hs|Hs].
    + rewrite bool_decide_eq_true_2 by done.
      by erewrite bind_throw by (by apply addTask_throw).
    + rewrite bool_decide_eq_false_2 by done.
      by erewrite bind_normal by (by eapply addTask_normal).
  - by erewrite bind_normal by (by eapply deleteTask_eq).
  - destruct (List.find _ l) as [r|] eqn:Hfind.
    + destruct (find_some _ _ Hfind) as [Hr _].
      apply list_elem_of_In in Hr.
      destruct (refs_ok_lookup w l r Hok Hr) as [t Ht].
      by erewrite bind_normal by (by eapply toggleTask_found).
    + by erewrite bind_normal by (by eapply toggleTask_absent).
  - by erewrite bind_normal by (by eapply clearCompleted_eq).
  - destruct (deref_all_is_Some w l Hok) as [ts Hts].
    erewrite bind_normal; [reflexivity |].
    apply getStats_eq. unfold collection. by rewrite Hl.
  - by erewrite bind_normal by (by eapply getAllTasks_eq).
Qed.

Lemma StronglySorted_filter {A} (R : relation A) (P : A → Prop)
    `{∀ x, Decision (P x)} (l : list A) :
  StronglySorted R l → StronglySorted R (filter P l).
Proof.
  induction 1 as [|x l Hl IH Hx]; [constructor |].
  rewrite filter_cons. destruct (decide (P x)); [| done].
  constructor; [done |].
  rewrite Forall_forall in Hx. apply Forall_forall. intros y Hy.
  apply list_elem_of_filter in Hy as [_ Hy]. by apply Hx.
Qed.

Lemma StronglySorted_NoDup {A} (R : relation A) (l : list A) :
  (∀ x, ¬ R x x) → StronglySorted R l → NoDup l.
Proof.
  intros Hirr. induction 1 as [|x l Hl IH Hx]; constructor; [| done].
  intros Hin. rewrite Forall_forall in Hx.
  by apply (Hirr x), Hx.
Qed.

Lemma inv_new_TaskManager : inv new_TaskManager.
Proof.
  split.
  - apply wf_new_TaskManager.
  - done.
  - intros r t Hr. cbn in Hr. by rewrite lookup_nil in Hr.
  - intros l [= <-]. constructor.
Qed.

Lemma outcome_inv now c w l :
  inv w → task_refs w = Some l → inv (outcome now c l w).2.
Proof.
  intros Hinv Hl. pose proof Hinv as [Hwf Hnext Hid Hsorted].
  destruct (wf_task_refs w Hwf) as (l' & Hl' & Hok).
  assert (l' = l) as -> by congruence.
  specialize (Hsorted l Hl).
  destruct c as [s d|i|i| | |]; cbn [outcome].
  - destruct (bool_decide (trim s = [])); [done |]. cbn [snd].
    split.
    + by apply wf_added.
    + cbn. rewrite length_app. cbn. lia.
    + cbn. intros r t Hr. apply lookup_app_Some in Hr as [Hr|[Hle Hr]].
      * by apply Hid.
      * apply list_lookup_singleton_Some in Hr as [Hr <-]. cbn.
        apply lookup_ge_None_2 in Hle as Hnone.
        assert (r = length (task_heap w)) as -> by lia. lia.
    + intros k Hk. rewrite task_refs_added in Hk by done.
      injection Hk as <-. apply StronglySorted_app_2.
      * intros r1 r2 Hr1 Hr2. apply list_elem_of_singleton in Hr2 as ->.
        unfold refs_ok in Hok. rewrite Forall_forall in Hok. by apply Hok.
      * done.
      * repeat constructor.
  - cbn [snd]. split; [by apply wf_filtered | done | done |].
    intros k Hk. rewrite task_refs_filtered in Hk. injection Hk as <-.
    by apply StronglySorted_filter.
  - cbn [snd]. destruct (List.find _ l) as [r|]; [| done].
    split.
    + by apply wf_altered.
    + cbn. by rewrite length_alter.
    + cbn. intros r' t Hr'. rewrite list_lookup_alter in Hr'.
      destruct (decide (r = r')) as [<-|Hne]; [| by apply Hid].
      destruct (task_heap w !! r) as [t0|] eqn:Ht0; [| done].
      injection Hr' as <-. cbn. by apply Hid.
    + intros k Hk. unfold task_refs in Hk, Hl. cbn in Hk.
      assert (k = l) as -> by congruence. done.
  - cbn [snd]. split; [by apply wf_filtered | done | done |].
    intros k Hk. rewrite task_refs_filtered in Hk. injection Hk as <-.
    by apply StronglySorted_filter.
  - done.
  - cbn [snd]. split; [by apply wf_copied | done | done |].
    intros k Hk. unfold task_refs in Hk, Hl. cbn in Hk.
    rewrite lookup_app_l in Hk by (by destruct Hwf).
    assert (k = l) as -> by congruence. done.
Qed.

Lemma run_cons now c rest w l :
  wf w → task_refs w = Some l →
  run ((now, c) :: rest) w
  = match outcome now c l w with
    | (Normal (Some r), w') =>
        t ← task_heap w' !! r;
        '(ids, w'') ← run rest w';
        Some (id t :: ids, w'')
    | (_, w') => run rest w'
    end.
Proof.
  intros Hwf Hl. cbn [run]. rewrite (perform_eq now c w l Hwf Hl).
  by destruct (outcome now c l w) as [[[r|]|e] w'].
Qed.

Lemma run_step now c rest w l ids w'' :
  wf w → task_refs w = Some l →
  run ((now, c) :: rest) w = Some (ids, w'') →
  ∃ ids', run rest (outcome now c l w).2 = Some (ids', w'').
Proof.
  intros Hwf Hl. rewrite (run_cons now c rest w l Hwf Hl).
  destruct (outcome now c l w) as [[[r|]|e] w']; cbn [snd]; eauto.
  destruct (task_heap w' !! r) as [t|]; [| done]. cbn.
  destruct (run rest w') as [[ids' w3]|]; [| done]. cbn.
  intros [= <- <-]. eauto.
Qed.

Lemma outcome_accepted now c w l :
  accepted (now, c) = true →
  ∃ w', outcome now c l w = (Normal (Some (length (task_heap w))), w')
        ∧ task_heap w'
          = task_heap w ++ [made_task now (nextId (this w))
                              match c with AddTask s _ => s | _ => [] end
                              match c with AddTask _ d => d | _ => JsNull end].
Proof.
  destruct c as [s d|i|i| | |]; try done.
  unfold accepted. cbn. intros Hs. apply negb_true_iff in Hs.
  rewrite Hs. eauto.
Qed.

Lemma outcome_not_accepted now c w l :
  accepted (now, c) = false →
  ∃ res w', outcome now c l w = (res, w')
            ∧ (∀ r, res ≠ Normal (Some r))
            ∧ length (task_heap w') = length (task_heap w).
Proof.
  destruct c as [s d|i|i| | |]; cbn [outcome].
  - unfold accepted. cbn. intros Hs. apply negb_false_iff in Hs.
    rewrite Hs. eauto.
  - eauto.
  - intros _. destruct (List.find _ l); eexists _, _;
      (split; [done |]); (split; [done |]); [| done].
    cbn. by rewrite length_alter.
  - eauto.
  - eauto.
  - eauto.
Qed.

Lemma successful_cons c rest :
  successful (c :: rest)
  = ((if accepted c then 1 else 0) + successful rest)%nat.
Proof.
  unfold successful. rewrite filter_cons.
  destruct (accepted c); cbn; done.
Qed.

(** A session from a world of [inv] runs to its end; the ids it returns
    count up from the number of tasks created before it. *)
Lemma run_inv calls :
  ∀ w, inv w →
  ∃ ids w',
    run calls w = Some (ids, w')
    ∧ inv w'
    ∧ ids = Z.of_nat <$> seq (S (length (task_heap w))) (successful calls)
    ∧ length (task_heap w')
      = (length (task_heap w) + successful calls)%nat.
Proof.
  induction calls as [|[now c] rest IH]; intros w Hinv.
  { exists [], w. cbn. split; [done |]. split; [done |].
    split; [done | lia]. }
  pose proof (inv_wf w Hinv) as Hwf.
  destruct (wf_task_refs w Hwf) as (l & Hl & Hok).
  pose proof (outcome_inv now c w l Hinv Hl) as Hinv'.
  rewrite (run_cons now c rest w l Hwf Hl), successful_cons.
  destruct (accepted (now, c)) eqn:Hacc.
  - destruct (outcome_accepted now c w l Hacc) as (w' & Ho & Hheap).
    rewrite Ho in *. cbn [snd] in Hinv'.
    destruct (IH w' Hinv') as (ids & w'' & Hrun & Hinv'' & Hids & Hlen).
    rewrite Hheap, list_lookup_middle by done. cbn [mbind option_bind].
    rewrite Hrun. cbn [mbind option_bind]. eexists _, _. split; [done |].
    split; [done |].
    rewrite Hheap, length_app in Hids, Hlen. cbn [length] in Hids, Hlen.
    cbn [Nat.add seq fmap list_fmap made_task id]. split; [| lia].
    rewrite (inv_next w Hinv). f_equal; [lia |].
    rewrite Hids. f_equal. f_equal. lia.
  - destruct (outcome_not_accepted now c w l Hacc)
      as (res & w' & Ho & Hres & Hheap).
    rewrite Ho in *. cbn [snd] in Hinv'.
    destruct (IH w' Hinv') as (ids & w'' & Hrun & Hinv'' & Hids & Hlen).
    rewrite Hheap in Hids, Hlen.
    exists ids, w''. split; [| done].
    destruct res as [[r|]|e]; [by destruct (Hres r) | done | done].
Qed.

Lemma collection_ids w l ts :
  inv w → task_refs w = Some l → deref_all w l = Some ts →
  id <$> ts = (λ r, Z.of_nat r + 1) <$> l.
Proof.
  intros Hinv _. unfold deref_all. rewrite mapM_Some.
  induction 1 as [|r t l ts Ht _ IH]; [done |].
  cbn. f_equal; [by apply (inv_id w Hinv) | done].
Qed.

Lemma collection_sorted w ts :
  inv w → collection w = Some ts → StronglySorted Z.lt (id <$> ts).
Proof.
  intros Hinv Hts. destruct (collection_split w ts Hts) as (l & Hl & Hd).
  rewrite (collection_ids w l ts Hinv Hl Hd).
  apply (StronglySorted_fmap _ lt); [intros x y; lia |].
  by apply (inv_sorted w Hinv).
Qed.

(** C6.  A session on a new manager runs to its end, whatever calls it
    mixes, and its successful [addTask] calls return the ids 1, 2, 3 and
    so on, one more at each; [nextId] ends one above the last.  So no id
    is returned twice, the ids of the tasks collection go up strictly
    (they are distinct), and each was returned by an [addTask] of the
    session. *)
Theorem ids_count_up (calls : list (Z * Call)) :
  ∃ ids w ts,
    run calls new_TaskManager = Some (ids, w)
    ∧ ids = Z.of_nat <$> seq 1 (successful calls)
    ∧ nextId (this w) = Z.of_nat (successful calls) + 1
    ∧ NoDup ids
    ∧ collection w = Some ts
    ∧ StronglySorted Z.lt (id <$> ts)
    ∧ NoDup (id <$> ts)
    ∧ Forall (λ t, id t ∈ ids) ts.
Proof.
  destruct (run_inv calls new_TaskManager inv_new_TaskManager)
    as (ids & w & Hrun & Hinv & Hids & Hlen).
  cbn in Hids, Hlen.
  destruct (wf_collection w (inv_wf w Hinv)) as [ts Hts].
  exists ids, w, ts.
  split; [done |]. split; [done |].
  split; [rewrite (inv_next w Hinv); lia |].
  split.
  { rewrite Hids. apply NoDup_fmap_2; [| apply NoDup_seq].
    intros x y. lia. }
  split; [done |].
  pose proof (collection_sorted w ts Hinv Hts) as Hsorted.
  split; [done |].
  split.
  { eapply StronglySorted_NoDup; [| exact Hsorted]. intros x. lia. }
  destruct (collection_split w ts Hts) as (l & Hl & Hd).
  apply Forall_forall. intros t Ht.
  apply list_elem_of_lookup in Ht as [n Hn].
  unfold deref_all in Hd. rewrite mapM_Some in Hd.
  destruct (Forall2_lookup_r _ _ _ _ _ Hd Hn) as (r & Hr & Hrt).
  rewrite (inv_id w Hinv r t Hrt), Hids.
  apply list_elem_of_fmap. exists (S r). split; [lia |].
  apply elem_of_seq. apply lookup_lt_Some in Hrt. lia.
Qed.

(** ** Snapshots *)

Lemma outcome_frame now c w l a :
  wf w → task_refs w = Some l →
  (a < length (array_heap w))%nat → a ≠ tasks (this w) →
  array_heap (outcome now c l w).2 !! a = array_heap w !! a
  ∧ (a < length (array_heap (outcome now c l w).2))%nat
  ∧ a ≠ tasks (this (outcome now c l w).2).
Proof.
  intros Hwf Hl Ha Hne.
  destruct c as [s d|i|i| | |]; cbn [outcome].
  - destruct (bool_decide (trim s = [])); [done |]. cbn.
    rewrite list_lookup_insert_ne, length_insert by done. done.
  - cbn. rewrite lookup_app_l, length_app by done. cbn.
    split; [done |]. split; lia.
  - by destruct (List.find _ l).
  - cbn. rewrite lookup_app_l, length_app by done. cbn.
    split; [done |]. split; lia.
  - done.
  - cbn. rewrite lookup_app_l, length_app by done. cbn.
    split; [done |]. split; [lia | done].
Qed.

Lemma set_completed_same t : set_completed (completed t) t = t.
Proof. by destruct t. Qed.

Lemma set_completed_twice b b' t :
  set_completed b (set_completed b' t) = set_completed b t.
Proof. done. Qed.

Lemma outcome_tasks now c w l r t :
  task_heap w !! r = Some t →
  ∃ b, task_heap (outcome now c l w).2 !! r = Some (set_completed b t).
Proof.
  intros Ht.
  assert (∃ b, task_heap w !! r = Some (set_completed b t)) as Hsame
    by (exists (completed t); by rewrite set_completed_same).
  destruct c as [s d|i|i| | |]; cbn [outcome]; try done.
  - destruct (bool_decide (trim s = [])); [done |]. cbn.
    exists (completed t). rewrite set_completed_same.
    by apply lookup_app_l_Some.
  - destruct (List.find _ l) as [r'|]; [| done]. cbn.
    rewrite list_lookup_alter. destruct (decide (r' = r)) as [->|]; [| done].
    rewrite Ht. cbn. by exists (negb (completed t)).
Qed.

Lemma run_frame calls :
  ∀ w ids w' a,
    inv w → (a < length (array_heap w))%nat → a ≠ tasks (this w) →
    run calls w = Some (ids, w') →
    array_heap w' !! a = array_heap w !! a
    ∧ ∀ r t, task_heap w !! r = Some t →
             ∃ b, task_heap w' !! r = Some (set_completed b t).
Proof.
  induction calls as [|[now c] rest IH]; intros w ids w' a Hinv Ha Hne Hrun.
  { injection Hrun as <- <-. split; [done |]. intros r t Ht.
    exists (completed t). by rewrite set_completed_same. }
  pose proof (inv_wf w Hinv) as Hwf.
  destruct (wf_task_refs w Hwf) as (l & Hl & Hok).
  destruct (run_step now c rest w l ids w' Hwf Hl Hrun) as [ids' Hrest].
  destruct (outcome_frame now c w l a Hwf Hl Ha Hne) as (Heq & Ha' & Hne').
  destruct (IH _ _ _ a (outcome_inv now c w l Hinv Hl) Ha' Hne' Hrest)
    as [Harr Htasks].
  split; [congruence |].
  intros r t Ht.
  destruct (outcome_tasks now c w l r t Ht) as [b Hb].
  destruct (Htasks r _ Hb) as [b' Hb'].
  exists b'. by rewrite Hb', set_completed_twice.
Qed.

(** C9.  In a world a session on a new manager has reached,
    [getAllTasks()] returns a new array, not the array [this.tasks],
    with the elements of [this.tasks] in their order, which is the order
    the tasks were created in: references and ids go up.  The state of
    the manager stays as it is.  Whatever calls follow, the array keeps
    its elements and their order, and each task object keeps all its
    fields but [completed]. *)
Theorem getAllTasks_snapshot (calls : list (Z * Call)) (ids : list Z)
    (w : World) :
  run calls new_TaskManager = Some (ids, w) →
  ∃ a w1 l ts,
    getAllTasks w = Some (Normal a, w1)
    ∧ task_refs w = Some l
    ∧ collection w = Some ts
    ∧ array_heap w1 !! a = Some l
    ∧ snapshot w1 a = Some ts
    ∧ a ≠ tasks (this w1)
    ∧ manager_state w1 = manager_state w
    ∧ StronglySorted lt l
    ∧ StronglySorted Z.lt (id <$> ts)
    ∧ ∀ calls' ids' w2,
        run calls' w1 = Some (ids', w2) →
        array_heap w2 !! a = Some l
        ∧ ∀ r t, task_heap w1 !! r = Some t →
                 ∃ b, task_heap w2 !! r = Some (set_completed b t).
Proof.
  intros Hrun.
  destruct (run_inv calls new_TaskManager inv_new_TaskManager)
    as (ids0 & w0 & Hrun0 & Hinv & _).
  assert (w0 = w) as -> by congruence. clear Hrun0 ids0.
  pose proof (inv_wf w Hinv) as Hwf.
  destruct (wf_task_refs w Hwf) as (l & Hl & Hok).
  destruct (deref_all_is_Some w l Hok) as [ts Hts].
  assert (collection w = Some ts) as Hcoll
    by (unfold collection; by rewrite Hl).
  pose proof (outcome_inv 0 GetAllTasks w l Hinv Hl) as Hinv1.
  cbn [outcome snd] in Hinv1.
  assert (array_heap (set_array_heap (array_heap w ++ [l]) w)
            !! length (array_heap w) = Some l) as Ha
    by (cbn; by apply list_lookup_middle).
  exists (length (array_heap w)), (set_array_heap (array_heap w ++ [l]) w),
    l, ts.
  split; [by apply getAllTasks_eq |].
  split; [done |]. split; [done |]. split; [done |].
  split; [unfold snapshot; by rewrite Ha |].
  assert (length (array_heap w) ≠ tasks (this w)) as Hne
    by (destruct Hwf; lia).
  split; [done |].
  split.
  { unfold manager_state, task_refs in *. cbn.
    rewrite lookup_app_l by (by destruct Hwf). done. }
  split; [by apply (inv_sorted w Hinv) |].
  split; [by apply (collection_sorted w) |].
  intros calls' ids' w2 Hrun'.
  destruct (run_frame calls' _ ids' w2 (length (array_heap w)) Hinv1)
    as [Harr Htasks]; [| done | done |].
  { cbn. rewrite length_app. cbn. lia. }
  split; [congruence | done].
Qed.

(** ** What [trim] strips *)

Lemma trim_start_split s :
  ∃ pre, s = pre ++ trim_start s ∧ Forall (λ c, is_white_space c = true) pre.
Proof.
  induction s as [|c s (pre & Hs & Hpre)]; [by exists [] |].
  cbn [trim_start]. destruct (is_white_space c) eqn:Hc.
  - exists (c :: pre). split; [by rewrite Hs at 1 | by constructor].
  - by exists [].
Qed.

Lemma trim_start_head s c l :
  trim_start s = c :: l → is_white_space c = false.
Proof.
  induction s as [|c' s IH]; [done |]. cbn [trim_start].
  destruct (is_white_space c') eqn:Hc; [done |]. by intros [= <- _].
Qed.

Lemma trim_start_keeps c l :
  is_white_space c = false → trim_start (c :: l) = c :: l.
Proof. cbn [trim_start]. by intros ->. Qed.

Lemma trim_start_nil s :
  trim_start s = [] ↔ Forall (λ c, is_white_space c = true) s.
Proof.
  induction s as [|c s IH]; [done |]. cbn [trim_start].
  rewrite Forall_cons. destruct (is_white_space c).
  - rewrite IH. tauto.
  - split; [done | by intros [? _]].
Qed.

Lemma trim_end_split s :
  ∃ post, s = trim_end s ++ post ∧ Forall (λ c, is_white_space c = true) post.
Proof.
  unfold trim_end.
  destruct (trim_start_split (reverse s)) as (pre & Hs & Hpre).
  exists (reverse pre). split; [| by apply Forall_reverse].
  rewrite <- reverse_app, <- Hs. by rewrite reverse_involutive.
Qed.

Lemma trim_end_nil s :
  trim_end s = [] ↔ Forall (λ c, is_white_space c = true) s.
Proof.
  unfold trim_end. rewrite <- (Forall_reverse _ s), <- trim_start_nil.
  split; [| by intros ->].
  intros H. apply (f_equal reverse) in H.
  by rewrite reverse_involutive in H.
Qed.

Lemma trim_end_last s l c :
  trim_end s = l ++ [c] → is_white_space c = false.
Proof.
  unfold trim_end. intros H. apply (f_equal reverse) in H.
  rewrite reverse_involutive, reverse_snoc in H.
  by eapply trim_start_head.
Qed.

Lemma trim_end_keeps l c :
  is_white_space c = false → trim_end (l ++ [c]) = l ++ [c].
Proof.
  intros Hc. unfold trim_end. rewrite reverse_snoc.
  rewrite trim_start_keeps by done.
  by rewrite reverse_cons, reverse_involutive.
Qed.

Lemma snoc_inv {A} (l : list A) : l ≠ [] → ∃ l' c, l = l' ++ [c].
Proof. induction l using rev_ind; [done | eauto]. Qed.

Lemma trim_nil s :
  trim s = [] ↔ Forall (λ c, is_white_space c = true) s.
Proof.
  unfold trim. rewrite trim_end_nil, <- (trim_start_nil s). split.
  - intros H. destruct (trim_start s) as [|c l] eqn:Hs; [done |].
    apply trim_start_head in Hs. apply Forall_cons in H as [H _]. congruence.
  - by intros ->.
Qed.

Lemma trim_head s c l : trim s = c :: l → is_white_space c = false.
Proof.
  unfold trim. destruct (trim_end_split (trim_start s)) as (post & Hs & _).
  intros H. rewrite H in Hs. by eapply trim_start_head.
Qed.

Lemma trim_idempotent s : trim (trim s) = trim s.
Proof.
  destruct (trim s) as [|c l] eqn:Hs; [done |].
  pose proof (trim_head s c l Hs) as Hc.
  unfold trim at 1. rewrite trim_start_keeps by done.
  destruct (snoc_inv (c :: l)) as (l' & c' & Hl); [done |].
  rewrite Hl. apply trim_end_keeps.
  apply (trim_end_last (trim_start s) l'). by rewrite <- Hl, <- Hs.
Qed.

(** ** More on the manager's operations *)

(** X1.  [addTask] throws exactly for the texts made of white space
    only, the empty text among them, and completes normally for every
    other text. *)
Theorem addTask_throws_iff (now : Z) (s : JsString) (d : JsValue) (w : World) :
  wf w →
  ((∃ e w', addTask now s d w = Some (Throw e, w'))
   ↔ Forall (λ c, is_white_space c = true) s)
  ∧ ((∃ r w', addTask now s d w = Some (Normal r, w'))
     ↔ ¬ Forall (λ c, is_white_space c = true) s).
Proof.
  intros Hwf. destruct (wf_task_refs w Hwf) as (l & Hl & _).
  rewrite <- !trim_nil.
  destruct (decide (trim s = [])) as [Hs|Hs].
  - rewrite (addTask_throw now s d w Hs). split.
    + split; [done | eauto].
    + split; [by intros (r & w' & [=]) | done].
  - rewrite (addTask_normal now s d w l Hs Hl). split.
    + split; [by intros (e & w' & [=]) | done].
    + split; [done | eauto].
Qed.

(** A property of the worlds that every call keeps holds at the end of
    every session. *)
Lemma run_preserves (P : World → Prop) :
  (∀ now c w l, inv w → task_refs w = Some l → P w →
                P (outcome now c l w).2) →
  ∀ calls w ids w',
    inv w → P w → run calls w = Some (ids, w') → P w'.
Proof.
  intros Hstep. induction calls as [|[now c] rest IH];
    intros w ids w' Hinv HP Hrun.
  { by injection Hrun as <- <-. }
  pose proof (inv_wf w Hinv) as Hwf.
  destruct (wf_task_refs w Hwf) as (l & Hl & Hok).
  destruct (run_step now c rest w l ids w' Hwf Hl Hrun) as [ids' Hrest].
  eapply IH; [| | exact Hrest].
  - by apply outcome_inv.
  - by apply Hstep.
Qed.

Lemma outcome_heap now c w l :
  task_heap (outcome now c l w).2 = task_heap w
  ∨ (∃ s d, c = AddTask s d ∧ trim s ≠ []
            ∧ task_heap (outcome now c l w).2
              = task_heap w ++ [made_task now (nextId (this w)) s d])
  ∨ (∃ i r, c = ToggleTask i
            ∧ task_heap (outcome now c l w).2
              = alter toggle r (task_heap w)).
Proof.
  destruct c as [s d|i|i| | |]; cbn [outcome]; try by left.
  - destruct (decide (trim s = [])) as [Hs|Hs].
    + rewrite bool_decide_eq_true_2 by done. by left.
    + rewrite bool_decide_eq_false_2 by done. right. left. by exists s, d.
  - destruct (List.find _ l) as [r|]; [| by left].
    right. right. by exists i, r.
Qed.

(** X2.  In a world a session on a new manager reaches, the text of
    every task object is not empty and is its own trim: it starts and
    ends with a code unit that is not white space. *)
Theorem texts_are_trimmed (calls : list (Z * Call)) (ids : list Z)
    (w : World) :
  run calls new_TaskManager = Some (ids, w) →
  Forall (λ t, text t ≠ [] ∧ trim (text t) = text t
               ∧ (∀ c k, text t = c :: k → is_white_space c = false)
               ∧ (∀ k c, text t = k ++ [c] → is_white_space c = false))
    (task_heap w).
Proof.
  intros Hrun.
  assert (Forall (λ t, text t ≠ [] ∧ trim (text t) = text t) (task_heap w))
    as Hall.
  { eapply (run_preserves
      (λ w, Forall (λ t, text t ≠ [] ∧ trim (text t) = text t)
              (task_heap w)));
      [| apply inv_new_TaskManager | constructor | exact Hrun].
    intros now c w0 l _ _ HP.
    destruct (outcome_heap now c w0 l)
      as [-> | [(s & d & _ & Hs & ->) | (i & r & _ & ->)]].
    - done.
    - apply Forall_app. split; [done |]. repeat constructor; cbn; [done |].
      apply trim_idempotent.
    - apply Forall_alter; [done |]. by intros t _. }
  eapply Forall_impl; [exact Hall |]. cbn. intros t [Hne Htrim].
  split; [done |]. split; [done |]. split.
  - intros c k Hk. apply (trim_head (text t) c k). by rewrite Htrim.
  - intros k c Hk. apply (trim_end_last (trim_start (text t)) k).
    fold (trim (text t)). by rewrite Htrim.
Qed.

Lemma TimeClip_range n d :
  TimeClip n = Some d → -8640000000000000 ≤ d ≤ 8640000000000000.
Proof.
  destruct n as [| |q]; [done | done |]. cbn [TimeClip].
  destruct (Qle_bool _ _) eqn:Hle; [| done]. intros [= <-].
  apply Qle_bool_iff in Hle. unfold Qle, Qabs in Hle.
  destruct q as [n p]. cbn in Hle |- *.
  assert (Z.abs (n ÷ Z.pos p) ≤ 8640000000000000); [| lia].
  rewrite <- Z.quot_abs by lia. change (Z.abs (Z.pos p)) with (Z.pos p).
  rewrite Z.quot_div_nonneg by lia.
  apply Z.div_le_upper_bound; lia.
Qed.

Lemma new_Date_range v d :
  new_Date v = Some d → -8640000000000000 ≤ d ≤ 8640000000000000.
Proof.
  destruct v as [| |b|n|s]; cbn [new_Date].
  - done.
  - intros [= <-]. lia.
  - intros [= <-]. destruct b; lia.
  - apply TimeClip_range.
  - apply TimeClip_range.
Qed.

(** X3.  In a world a session on a new manager reaches, the deadline of
    every task object is [null], an invalid date, or a date whose time
    value is within 8.64e15 ms of the epoch, the range of [Date]. *)
Theorem deadlines_in_range (calls : list (Z * Call)) (ids : list Z)
    (w : World) :
  run calls new_TaskManager = Some (ids, w) →
  Forall (λ t, ∀ d, deadline t = Some (Some d) →
                    -8640000000000000 ≤ d ≤ 8640000000000000)
    (task_heap w).
Proof.
  intros Hrun.
  eapply (run_preserves
    (λ w, Forall (λ t, ∀ d, deadline t = Some (Some d) →
                            -8640000000000000 ≤ d ≤ 8640000000000000)
            (task_heap w)));
    [| apply inv_new_TaskManager | constructor | exact Hrun].
  intros now c w0 l _ _ HP.
  destruct (outcome_heap now c w0 l)
    as [-> | [(s & d & _ & Hs & ->) | (i & r & _ & ->)]].
  - done.
  - apply Forall_app. split; [done |]. constructor; [| constructor].
    unfold made_task. cbn [deadline].
    intros d'. destruct (truthy d); [| done].
    intros [= Hd]. by eapply new_Date_range.
  - apply Forall_alter; [done |]. by intros t _.
Qed.

(** X4.  [deleteTask(id)] keeps the tasks with another id, in the order
    they had, and removes the others; it touches no task object and not
    the counter. *)
Theorem deleteTask_removes (i : Z) (w : World) :
  wf w →
  ∃ ts w1,
    collection w = Some ts
    ∧ deleteTask i w = Some (Normal tt, w1)
    ∧ collection w1 = Some (filter (λ t, id t ≠ i) ts)
    ∧ task_heap w1 = task_heap w
    ∧ nextId (this w1) = nextId (this w).
Proof.
  intros Hwf.
  destruct (wf_task_refs w Hwf) as (l & Hl & Hok).
  destruct (deref_all_is_Some w l Hok) as [ts Hts].
  set (p := λ task : Task, negb (id task =? i)).
  exists ts, (filtered p l w).
  split; [unfold collection; by rewrite Hl |].
  split; [by apply deleteTask_eq |].
  split; [| done].
  rewrite (collection_filtered p w l ts Hts). f_equal.
  apply list_filter_iff. intros t. unfold p.
  destruct (Z.eqb_spec (id t) i); cbn; naive_solver.
Qed.

Lemma filter_one_out {A B} `{EqDecision B} (f : A → B) (b : B)
    (l : list A) :
  NoDup (f <$> l) → b ∈ f <$> l →
  ∃ l1 x l2, l = l1 ++ x :: l2 ∧ f x = b
             ∧ filter (λ y, f y ≠ b) l = l1 ++ l2.
Proof.
  intros Hnd Hin. apply list_elem_of_fmap in Hin as (x & -> & Hx).
  apply list_elem_of_split in Hx as (l1 & l2 & ->).
  exists l1, x, l2. split; [done |]. split; [done |].
  rewrite fmap_app, fmap_cons in Hnd.
  apply NoDup_app in Hnd as (_ & Hl1 & Hnd).
  apply NoDup_cons in Hnd as [Hl2 _].
  rewrite filter_app, filter_cons_False by (by intros []).
  rewrite !filter_all; [done | |].
  - intros y Hy Heq. apply Hl2. rewrite <- Heq. apply list_elem_of_fmap. eauto.
  - intros y Hy Heq. apply (Hl1 (f x)); [| left].
    rewrite <- Heq. apply list_elem_of_fmap. eauto.
Qed.

Lemma inv_ids_NoDup w ts :
  inv w → collection w = Some ts → NoDup (id <$> ts).
Proof.
  intros Hinv Hts. eapply StronglySorted_NoDup; [| by eapply collection_sorted].
  intros x. lia.
Qed.

(** X5.  In a world a session on a new manager reaches, [deleteTask(id)]
    with the id of a task of the collection removes that one task and
    nothing else. *)
Theorem deleteTask_removes_one (calls : list (Z * Call)) (ids : list Z)
    (w : World) (i : Z) (ts : list Task) :
  run calls new_TaskManager = Some (ids, w) →
  collection w = Some ts →
  i ∈ id <$> ts →
  ∃ ts1 t ts2 w1,
    ts = ts1 ++ t :: ts2
    ∧ id t = i
    ∧ deleteTask i w = Some (Normal tt, w1)
    ∧ collection w1 = Some (ts1 ++ ts2).
Proof.
  intros Hrun Hts Hi.
  destruct (run_inv calls new_TaskManager inv_new_TaskManager)
    as (ids0 & w0 & Hrun0 & Hinv & _).
  assert (w0 = w) as -> by congruence. clear Hrun0 ids0.
  destruct (collection_split w ts Hts) as (l & Hl & Hd).
  pose proof (deref_all_refs_ok w l ts Hd) as Hok.
  destruct (filter_one_out id i ts (inv_ids_NoDup w ts Hinv Hts) Hi)
    as (ts1 & t & ts2 & Heq & Hid & Hfilter).
  set (p := λ task : Task, negb (id task =? i)).
  exists ts1, t, ts2, (filtered p l w).
  split; [done |]. split; [done |].
  split; [by apply deleteTask_eq |].
  rewrite (collection_filtered p w l ts Hd), <- Hfilter. f_equal.
  apply list_filter_iff. intros t'. unfold p.
  destruct (Z.eqb_spec (id t') i); cbn; naive_solver.
Qed.

Lemma outcome_refs now c w l k :
  wf w → task_refs w = Some l →
  task_refs (outcome now c l w).2 = Some k →
  ∀ r, r ∈ k → r ∈ l ∨ (r = length (task_heap w) ∧ accepted (now, c) = true).
Proof.
  intros Hwf Hl. destruct c as [s d|i|i| | |]; cbn [outcome].
  - unfold accepted. cbn [snd].
    destruct (bool_decide (trim s = [])); cbn [snd negb].
    + rewrite Hl. intros [= <-] r Hr. by left.
    + rewrite task_refs_added by done. intros [= <-] r Hr.
      apply elem_of_app in Hr as [Hr|Hr]; [by left | right].
      by apply list_elem_of_singleton in Hr.
  - cbn [snd]. rewrite task_refs_filtered. intros [= <-] r Hr.
    apply list_elem_of_filter in Hr as [_ Hr]. by left.
  - cbn [snd]. destruct (List.find _ l).
    + unfold task_refs in *. cbn. rewrite Hl. intros [= <-] r Hr. by left.
    + rewrite Hl. intros [= <-] r Hr. by left.
  - cbn [snd]. rewrite task_refs_filtered. intros [= <-] r Hr.
    apply list_elem_of_filter in Hr as [_ Hr]. by left.
  - cbn [snd]. rewrite Hl. intros [= <-] r Hr. by left.
  - cbn [snd]. unfold task_refs in *. cbn.
    rewrite lookup_app_l by (by destruct Hwf). rewrite Hl.
    intros [= <-] r Hr. by left.
Qed.

Lemma outcome_nextId now c w l :
  nextId (this w) ≤ nextId (this (outcome now c l w).2).
Proof.
  destruct c as [s d|i|i| | |]; cbn [outcome]; try done.
  - destruct (bool_decide (trim s = [])); cbn; lia.
  - destruct (List.find _ l); cbn; lia.
Qed.

(** X6.  An id below [nextId] that [deleteTask] has removed does not
    come back: whatever calls follow, no task of the collection has it
    and no [addTask] returns it. *)
Theorem deleted_id_stays_out (calls : list (Z * Call)) (ids : list Z)
    (w : World) (i : Z) :
  run calls new_TaskManager = Some (ids, w) →
  i < nextId (this w) →
  ∃ w1,
    deleteTask i w = Some (Normal tt, w1)
    ∧ ∀ calls' ids' w2 ts2,
        run calls' w1 = Some (ids', w2) →
        collection w2 = Some ts2 →
        (i ∉ id <$> ts2) ∧ (i ∉ ids').
Proof.
  intros Hrun Hi.
  destruct (run_inv calls new_TaskManager inv_new_TaskManager)
    as (ids0 & w0 & Hrun0 & Hinv & _).
  assert (w0 = w) as -> by congruence. clear Hrun0 ids0.
  pose proof (inv_wf w Hinv) as Hwf.
  destruct (wf_task_refs w Hwf) as (l & Hl & Hok).
  set (p := λ task : Task, negb (id task =? i)).
  pose proof (outcome_inv 0 (DeleteTask i) w l Hinv Hl) as Hinv1.
  cbn [outcome snd] in Hinv1. fold p in Hinv1.
  exists (filtered p l w). split; [by apply deleteTask_eq |].
  intros calls' ids' w2 ts2 Hrun' Hts2.
  set (P := λ w : World,
         i < nextId (this w)
         ∧ ∀ k, task_refs w = Some k → ∀ r, r ∈ k → Z.of_nat r + 1 ≠ i).
  assert (P (filtered p l w)) as HP1.
  { split; [done |]. intros k Hk r Hr.
    rewrite task_refs_filtered in Hk. injection Hk as <-.
    apply list_elem_of_filter in Hr as [Hp Hr].
    destruct (refs_ok_lookup w l r Hok Hr) as [t Ht].
    unfold holds, p in Hp. rewrite Ht in Hp. cbn in Hp.
    rewrite <- (inv_id w Hinv r t Ht).
    by destruct (Z.eqb_spec (id t) i). }
  assert (P w2) as [Hlt Hrefs].
  { eapply (run_preserves P); [| exact Hinv1 | exact HP1 | exact Hrun'].
    intros now c w0 l0 Hinv0 Hl0 [Hlt0 Hrefs0]. split.
    - pose proof (outcome_nextId now c w0 l0). lia.
    - intros k Hk r Hr.
      destruct (outcome_refs now c w0 l0 k (inv_wf w0 Hinv0) Hl0 Hk r Hr)
        as [Hr0 | [-> _]]; [by eapply Hrefs0 |].
      rewrite (inv_next w0 Hinv0) in Hlt0. lia. }
  destruct (run_inv calls' (filtered p l w) Hinv1)
    as (ids2 & w2' & Hrun2 & Hinv2 & Hids2 & _).
  assert (ids2 = ids' ∧ w2' = w2) as [-> ->] by (split; congruence).
  split.
  - destruct (collection_split w2 ts2 Hts2) as (l2 & Hl2 & Hd2).
    rewrite (collection_ids w2 l2 ts2 Hinv2 Hl2 Hd2).
    intros Hin. apply list_elem_of_fmap in Hin as (r & Heq & Hr).
    by apply (Hrefs l2 Hl2 r Hr).
  - rewrite Hids2. intros Hin.
    apply list_elem_of_fmap in Hin as (n & Heq & Hn).
    apply elem_of_seq in Hn. cbn [filtered task_heap] in Hn.
    rewrite (inv_next w Hinv) in Hi. lia.
Qed.

Lemma find_ext {A} (f g : A → bool) (l : list A) :
  (∀ x, x ∈ l → f x = g x) → List.find f l = List.find g l.
Proof.
  induction l as [|x l IH]; [done |]. intros Heq. cbn.
  rewrite (Heq x) by left. destruct (g x); [done |].
  apply IH. intros y Hy. apply Heq. by right.
Qed.

Lemma holds_id_altered i w r r' :
  holds (λ task, id task =? i)
    (set_task_heap (alter toggle r (task_heap w)) w) r'
  = holds (λ task, id task =? i) w r'.
Proof.
  unfold holds. cbn. rewrite list_lookup_alter.
  destruct (decide (r = r')) as [->|]; [| done].
  by destruct (task_heap w !! r').
Qed.

Lemma toggle_toggle t : toggle (toggle t) = t.
Proof.
  destruct t as [i s b c d]. unfold toggle. cbn. by rewrite negb_involutive.
Qed.

(** X7.  [toggleTask(id)] called twice in a row gives back the world it
    started from: the same task object is flipped and flipped back. *)
Theorem toggleTask_twice (i : Z) (w : World) :
  wf w →
  ∃ w1,
    toggleTask i w = Some (Normal tt, w1)
    ∧ toggleTask i w1 = Some (Normal tt, w).
Proof.
  intros Hwf.
  destruct (wf_task_refs w Hwf) as (l & Hl & Hok).
  destruct (List.find (holds (λ task, id task =? i) w) l) as [r|] eqn:Hfind.
  - destruct (find_some _ _ Hfind) as [Hr _].
    apply list_elem_of_In in Hr.
    destruct (refs_ok_lookup w l r Hok Hr) as [t Ht].
    exists (set_task_heap (alter toggle r (task_heap w)) w).
    split; [by eapply toggleTask_found |].
    erewrite toggleTask_found.
    + f_equal. f_equal. cbn. rewrite list_alter_alter_eq.
      rewrite list_alter_id by apply toggle_toggle. by destruct w.
    + exact Hl.
    + apply (refs_ok_mono w); [| done]. cbn. by rewrite length_alter.
    + rewrite <- Hfind. apply find_ext. intros r' _.
      apply holds_id_altered.
    + cbn. rewrite list_lookup_alter_eq, Ht. done.
  - exists w. split; by eapply toggleTask_absent.
Qed.

Lemma toggleTask_inv (i : Z) (w : World) (ts : list Task) :
  inv w → collection w = Some ts →
  ∃ w1,
    toggleTask i w = Some (Normal tt, w1)
    ∧ collection w1
      = Some ((λ t, if id t =? i then toggle t else t) <$> ts)
    ∧ array_heap w1 = array_heap w
    ∧ this w1 = this w.
Proof.
  intros Hinv Hcoll.
  pose proof (inv_wf w Hinv) as Hwf.
  destruct (collection_split w ts Hcoll) as (l & Hl & Hts).
  pose proof (deref_all_refs_ok w l ts Hts) as Hok.
  destruct (List.find (holds (λ task, id task =? i) w) l) as [r|] eqn:Hfind.
  - destruct (find_some _ _ Hfind) as [Hr Hholds].
    apply list_elem_of_In in Hr.
    destruct (refs_ok_lookup w l r Hok Hr) as [t Ht].
    unfold holds in Hholds. rewrite Ht in Hholds. cbn in Hholds.
    apply Z.eqb_eq in Hholds.
    exists (set_task_heap (alter toggle r (task_heap w)) w).
    split; [by eapply toggleTask_found |].
    split; [| done].
    unfold collection, task_refs in *. cbn [set_task_heap array_heap this].
    rewrite Hl. cbn. unfold deref_all in *. cbn [task_heap].
    rewrite mapM_Some in Hts. apply mapM_Some.
    apply Forall2_fmap_r. eapply Forall2_impl; [exact Hts |].
    cbn. intros r' t' Ht'. rewrite list_lookup_alter.
    destruct (decide (r = r')) as [<-|Hne].
    + rewrite Ht in Ht' |- *. injection Ht' as <-. cbn.
      by rewrite Hholds, Z.eqb_refl.
    + rewrite Ht'. f_equal.
      pose proof (inv_id w Hinv r t Ht). pose proof (inv_id w Hinv r' t' Ht').
      destruct (Z.eqb_spec (id t') i); [lia | done].
  - exists w. split; [by eapply toggleTask_absent |].
    split; [| done]. rewrite Hcoll. f_equal.
    rewrite <- (list_fmap_id ts) at 1. apply list_fmap_ext.
    intros n t Hn. cbn.
    pose proof (find_none _ _ Hfind) as Hnone.
    unfold deref_all in Hts. rewrite mapM_Some in Hts.
    destruct (Forall2_lookup_r _ _ _ _ _ Hts Hn) as (r & Hr & Hrt).
    specialize (Hnone r).
    rewrite <- list_elem_of_In in Hnone.
    specialize (Hnone (list_elem_of_lookup_2 _ _ _ Hr)).
    unfold holds in Hnone. rewrite Hrt in Hnone. cbn in Hnone.
    by rewrite Hnone.
Qed.

Lemma run_reaches_inv calls ids w :
  run calls new_TaskManager = Some (ids, w) → inv w.
Proof.
  intros Hrun.
  destruct (run_inv calls new_TaskManager inv_new_TaskManager)
    as (ids0 & w0 & Hrun0 & Hinv & _).
  by assert (w0 = w) as -> by congruence.
Qed.


(** ** Statistics *)

Lemma one_state_at_most now t :
  (if completed t then 1 else 0) + (if isOverdue now t then 1 else 0)
  + (if isDueSoon now t then 1 else 0) ≤ 1.
Proof.
  destruct (isOverdue now t) eqn:Ho, (isDueSoon now t) eqn:Hs.
  - apply isOverdue_true in Ho as (_ & _ & d & Hd & Hlt).
    apply isDueSoon_true in Hs as (_ & _ & d' & Hd' & Hgt).
    assert (d' = d) by congruence. lia.
  - apply isOverdue_true in Ho as (_ & -> & _). lia.
  - apply isDueSoon_true in Hs as (_ & -> & _). lia.
  - destruct (completed t); lia.
Qed.

Lemma length_filter_cons {A} (p : A → bool) (x : A) (l : list A) :
  Z.of_nat (length (filter (λ y, p y) (x :: l)))
  = (if p x then 1 else 0) + Z.of_nat (length (filter (λ y, p y) l)).
Proof.
  destruct (p x) eqn:Hp.
  - rewrite filter_cons_True by (by rewrite Hp). cbn [length]. lia.
  - rewrite filter_cons_False by (rewrite Hp; by intros []). lia.
Qed.

Lemma counts_exclusive now (ts : list Task) :
  Z.of_nat (length (filter (λ t, completed t) ts))
  + Z.of_nat (length (filter (λ t, isOverdue now t) ts))
  + Z.of_nat (length (filter (λ t, isDueSoon now t) ts))
  ≤ Z.of_nat (length ts).
Proof.
  induction ts as [|t ts IH]; [done |].
  rewrite !length_filter_cons. cbn [length].
  pose proof (one_state_at_most now t). lia.
Qed.

(** X9.  The numbers of [getStats()] are consistent: none is negative,
    [completed] is at most [total], and the tasks counted as overdue and
    as due soon are different tasks that are not completed, so
    [overdue + dueSoon] is at most [remaining]. *)
Theorem getStats_bounds (now : Z) (w : World) :
  wf w →
  ∃ st,
    getStats now w = Some (Normal st, w)
    ∧ 0 ≤ Stats.completed st ≤ Stats.total st
    ∧ 0 ≤ Stats.overdue st
    ∧ 0 ≤ Stats.dueSoon st
    ∧ Stats.overdue st + Stats.dueSoon st ≤ Stats.remaining st
    ∧ Stats.remaining st ≤ Stats.total st.
Proof.
  intros Hwf. destruct (wf_collection w Hwf) as [ts Hts].
  eexists. split; [by apply getStats_eq |]. cbn.
  pose proof (counts_exclusive now ts). lia.
Qed.

Lemma filter_clear (p : Task → bool) (ts : list Task) :
  (∀ t, p t = true → completed t = false) →
  filter (λ t, p t) (filter (λ t, negb (completed t)) ts)
  = filter (λ t, p t) ts.
Proof.
  intros Hp. apply list_filter_filter_l. intros t Ht.
  apply Is_true_true in Ht. by rewrite (Hp t Ht).
Qed.

Lemma length_not_completed (ts : list Task) :
  Z.of_nat (length (filter (λ t, negb (completed t)) ts))
  = Z.of_nat (length ts)
    - Z.of_nat (length (filter (λ t, completed t) ts)).
Proof.
  induction ts as [|t ts IH]; [done |].
  rewrite (length_filter_cons (λ t, negb (completed t))).
  rewrite (length_filter_cons (λ t, completed t)).
  cbn [length]. destruct (completed t); cbn; lia.
Qed.

Lemma no_completed_left (ts : list Task) :
  filter (λ t, completed t) (filter (λ t, negb (completed t)) ts) = [].
Proof.
  induction ts as [|t ts IH]; [done |].
  destruct (completed t) eqn:Hc.
  - by rewrite filter_cons_False by (rewrite Hc; by intros []).
  - rewrite filter_cons_True by (by rewrite Hc).
    by rewrite filter_cons_False by (rewrite Hc; by intros []).
Qed.

(** X10.  After [clearCompleted()], [getStats()] counts no completed
    task: [total] and [remaining] are what [remaining] was before, and
    [overdue] and [dueSoon] are what they were, at the same time. *)
Theorem getStats_after_clearCompleted (now : Z) (w : World) :
  wf w →
  ∃ st w1 st1,
    getStats now w = Some (Normal st, w)
    ∧ clearCompleted w = Some (Normal tt, w1)
    ∧ getStats now w1 = Some (Normal st1, w1)
    ∧ Stats.completed st1 = 0
    ∧ Stats.total st1 = Stats.remaining st
    ∧ Stats.remaining st1 = Stats.remaining st
    ∧ Stats.overdue st1 = Stats.overdue st
    ∧ Stats.dueSoon st1 = Stats.dueSoon st.
Proof.
  intros Hwf.
  destruct (wf_task_refs w Hwf) as (l & Hl & Hok).
  destruct (deref_all_is_Some w l Hok) as [ts Hts].
  set (p := λ task : Task, negb (completed task)).
  eexists _, (filtered p l w), _.
  split; [apply getStats_eq; unfold collection; by rewrite Hl |].
  split; [by apply clearCompleted_eq |].
  split; [apply getStats_eq; by apply collection_filtered |].
  cbn. unfold p. rewrite no_completed_left, length_not_completed.
  rewrite (filter_clear (isOverdue now)), (filter_clear (isDueSoon now)).
  - cbn. repeat split; lia.
  - intros t Ht. by apply isDueSoon_true in Ht as (_ & -> & _).
  - intros t Ht. by apply isOverdue_true in Ht as (_ & -> & _).
Qed.

(** ** Deadlines *)

(** X11.  For a task that is not completed and has a valid deadline,
    the clock decides: after the deadline the task is overdue; at the
    very millisecond of the deadline it is neither overdue nor due soon;
    during the 24 hours before it, the first millisecond included, it is
    due soon; earlier it is neither. *)
Theorem deadline_timeline (now : Z) (t : Task) (d : Z) :
  deadline t = Some (Some d) →
  completed t = false →
  (isOverdue now t, isDueSoon now t)
  = if d <? now then (true, false)
    else if d =? now then (false, false)
    else if d - now <=? 24 * 3600000 then (false, true)
    else (false, false).
Proof.
  intros Hd Hc.
  pose proof (isOverdue_true now t) as Ho.
  pose proof (isDueSoon_true now t) as Hs.
  rewrite Hd, Hc in Ho, Hs.
  assert (isOverdue now t = true ↔ d < now) as Ho'.
  { rewrite Ho. split; [intros (_ & _ & d' & [= <-] & H); lia |].
    intros H. split; [done | split; [done |]]. by exists d. }
  assert (isDueSoon now t = true ↔ 0 < d - now ≤ 24 * 3600000) as Hs'.
  { rewrite Hs. split; [intros (_ & _ & d' & [= <-] & H); lia |].
    intros H. split; [done | split; [done |]]. by exists d. }
  destruct (Z.ltb_spec d now), (Z.eqb_spec d now),
    (Z.leb_spec (d - now) (24 * 3600000));
    destruct (isOverdue now t), (isDueSoon now t);
    try done; try lia;
    try (pose proof (proj1 Ho' eq_refl); lia);
    try (pose proof (proj1 Hs' eq_refl); lia);
    try (assert (false = true) by (apply Ho'; lia); done);
    try (assert (false = true) by (apply Hs'; lia); done).
Qed.

(** X12.  A truthy [deadline] argument that [new Date] cannot read as a
    date gives the task an invalid date as deadline: the deadline is not
    [null], and the task is not overdue and not due soon at any time,
    completed or not. *)
Theorem addTask_invalid_deadline (now : Z) (s : JsString) (d : JsValue)
    (w : World) :
  wf w → trim s ≠ [] → truthy d = true → new_Date d = None →
  ∃ r t w',
    addTask now s d w = Some (Normal r, w')
    ∧ task_heap w' !! r = Some t
    ∧ deadline t = Some None
    ∧ ∀ now' b, isOverdue now' (set_completed b t) = false
                ∧ isDueSoon now' (set_completed b t) = false.
Proof.
  intros Hwf Hs Hd Hnone.
  destruct (wf_task_refs w Hwf) as (l & Hl & Hok).
  eexists _, (made_task now (nextId (this w)) s d), _.
  split; [by apply addTask_normal |].
  split; [cbn; by rewrite list_lookup_middle |].
  unfold made_task. rewrite Hd, Hnone. split; [done |].
  intros now' b. unfold isOverdue, isDueSoon. cbn. by destruct b.
Qed.

(** ** Shared task objects *)

(** X13.  The array [getAllTasks()] returns shares its task objects with
    the manager: after [toggleTask(id)] the array shows the task with
    that id flipped, as the tasks collection does. *)
Theorem snapshot_shares_tasks (calls : list (Z * Call)) (ids : list Z)
    (w : World) (i : Z) :
  run calls new_TaskManager = Some (ids, w) →
  ∃ ts a w1 w2,
    collection w = Some ts
    ∧ getAllTasks w = Some (Normal a, w1)
    ∧ snapshot w1 a = Some ts
    ∧ toggleTask i w1 = Some (Normal tt, w2)
    ∧ snapshot w2 a
      = Some ((λ t, if id t =? i then toggle t else t) <$> ts)
    ∧ snapshot w2 a = collection w2.
Proof.
  intros Hrun. pose proof (run_reaches_inv calls ids w Hrun) as Hinv.
  pose proof (inv_wf w Hinv) as Hwf.
  destruct (wf_task_refs w Hwf) as (l & Hl & Hok).
  destruct (deref_all_is_Some w l Hok) as [ts Hts].
  assert (collection w = Some ts) as Hcoll
    by (unfold collection; by rewrite Hl).
  pose proof (outcome_inv 0 GetAllTasks w l Hinv Hl) as Hinv1.
  cbn [outcome snd] in Hinv1.
  set (w1 := set_array_heap (array_heap w ++ [l]) w) in *.
  assert (task_refs w1 = Some l) as Hl1.
  { unfold task_refs, w1. cbn. rewrite lookup_app_l by (by destruct Hwf).
    exact Hl. }
  assert (array_heap w1 !! length (array_heap w) = Some l) as Ha
    by (unfold w1; cbn; by apply list_lookup_middle).
  assert (collection w1 = Some ts) as Hcoll1
    by (unfold collection; by rewrite Hl1).
  destruct (toggleTask_inv i w1 ts Hinv1 Hcoll1)
    as (w2 & Ht & Hc & Harr & Hthis).
  exists ts, (length (array_heap w)), w1, w2.
  split; [done |]. split; [by apply getAllTasks_eq |].
  split; [unfold snapshot; by rewrite Ha |].
  split; [done |].
  assert (snapshot w2 (length (array_heap w)) = collection w2) as Heq.
  { unfold snapshot, collection, task_refs. rewrite Harr, Hthis, Ha.
    unfold task_refs in Hl1. by rewrite Hl1. }
  split; [by rewrite Heq | done].
Qed.

Lemma outcome_task_kept now c w l r t :
  inv w → task_refs w = Some l →
  task_heap w !! r = Some t →
  c ≠ ToggleTask (id t) →
  task_heap (outcome now c l w).2 !! r = Some t.
Proof.
  intros Hinv Hl Ht Hc.
  destruct (wf_task_refs w (inv_wf w Hinv)) as (l' & Hl' & Hok).
  assert (l' = l) as -> by congruence.
  destruct c as [s d|i|i| | |]; cbn [outcome]; try done.
  - destruct (bool_decide (trim s = [])); [done |]. cbn.
    by apply lookup_app_l_Some.
  - destruct (List.find _ l) as [r'|] eqn:Hfind; [| done]. cbn.
    destruct (find_some _ _ Hfind) as [Hr' Hholds].
    apply list_elem_of_In in Hr'.
    destruct (refs_ok_lookup w l r' Hok Hr') as [t' Ht'].
    unfold holds in Hholds. rewrite Ht' in Hholds. cbn in Hholds.
    apply Z.eqb_eq in Hholds.
    rewrite list_lookup_alter_ne; [done |].
    intros ->. assert (t' = t) as -> by congruence. congruence.
Qed.

(** X14.  A task object changes only through [toggleTask] with its id:
    a session without such a call, whatever else it calls, leaves the
    object exactly as it was. *)
Theorem task_changes_by_toggle_only (calls : list (Z * Call))
    (ids : list Z) (w : World) (r : nat) (t : Task) :
  run calls new_TaskManager = Some (ids, w) →
  task_heap w !! r = Some t →
  ∀ calls' ids' w2,
    run calls' w = Some (ids', w2) →
    Forall (λ c, c.2 ≠ ToggleTask (id t)) calls' →
    task_heap w2 !! r = Some t.
Proof.
  intros Hrun Ht calls'.
  pose proof (run_reaches_inv calls ids w Hrun) as Hinv.
  clear Hrun. revert w Hinv Ht.
  induction calls' as [|[now c] rest IH];
    intros w Hinv Ht ids' w2 Hrun' Hno.
  { by injection Hrun' as <- <-. }
  pose proof (inv_wf w Hinv) as Hwf.
  destruct (wf_task_refs w Hwf) as (l & Hl & Hok).
  destruct (run_step now c rest w l ids' w2 Hwf Hl Hrun') as [ids2 Hrest].
  apply Forall_cons in Hno as [Hc Hno].
  eapply IH; [| | exact Hrest | exact Hno].
  - by apply outcome_inv.
  - by apply outcome_task_kept.
Qed.

(** X15.  In a world a session on a new manager reaches, completing a
    task that is not completed with [toggleTask(id)] and then calling
    [clearCompleted()] leaves the tasks that were not completed, in
    their order, without the one with that id. *)
Theorem complete_then_clear (calls : list (Z * Call)) (ids : list Z)
    (w : World) (i : Z) (ts : list Task) :
  run calls new_TaskManager = Some (ids, w) →
  collection w = Some ts →
  Forall (λ t, id t = i → completed t = false) ts →
  ∃ w1 w2,
    toggleTask i w = Some (Normal tt, w1)
    ∧ clearCompleted w1 = Some (Normal tt, w2)
    ∧ collection w2
      = Some (filter (λ t, completed t = false ∧ id t ≠ i) ts).
Proof.
  intros Hrun Hts Hopen.
  pose proof (run_reaches_inv calls ids w Hrun) as Hinv.
  destruct (toggleTask_inv i w ts Hinv Hts) as (w1 & Ht & Hc & Harr & Hthis).
  destruct (collection_split w1 _ Hc) as (l1 & Hl1 & Hd1).
  pose proof (deref_all_refs_ok w1 l1 _ Hd1) as Hok1.
  set (p := λ task : Task, negb (completed task)).
  exists w1, (filtered p l1 w1).
  split; [done |]. split; [by apply clearCompleted_eq |].
  rewrite (collection_filtered p w1 l1 _ Hd1). f_equal.
  clear -Hopen. induction ts as [|t ts IH]; [done |].
  apply Forall_cons in Hopen as [Ht Hts]. specialize (IH Hts).
  rewrite fmap_cons. unfold p in *.
  destruct (Z.eqb_spec (id t) i) as [Heq|Hne].
  - rewrite (filter_cons_False (λ t, negb (completed t))).
    2: { unfold toggle. cbn. rewrite (Ht Heq). by intros []. }
    rewrite (filter_cons_False (λ t, completed t = false ∧ id t ≠ i))
      by (by intros [_ ?]).
    exact IH.
  - destruct (completed t) eqn:Hc.
    + rewrite (filter_cons_False (λ t, negb (completed t)))
        by (rewrite Hc; by intros []).
      rewrite (filter_cons_False (λ t, completed t = false ∧ id t ≠ i))
        by (rewrite Hc; by intros [? _]).
      exact IH.
    + rewrite (filter_cons_True (λ t, negb (completed t)))
        by (by rewrite Hc).
      rewrite (filter_cons_True (λ t, completed t = false ∧ id t ≠ i))
        by done.
      by rewrite IH.
Qed.

(** ** The view *)

Lemma ui_bind_normal {A B} (m : Ui A) (f : A → Ui B) p w a p' w' :
  m p w = Some (Normal a, p', w') → (m ≫= f) p w = f a p' w'.
Proof. unfold mbind, Ui_bind. by intros ->. Qed.

Lemma call_eq {A} (m : Js A) p w c w' :
  m w = Some (c, w') → call m p w = Some (c, p, w').
Proof. unfold call. by intros ->. Qed.

Lemma task_refs_copied w l k :
  wf w → task_refs w = Some l → task_refs (copied k w) = Some l.
Proof.
  intros [Ht _] Hl. unfold task_refs, copied in *. cbn.
  by rewrite lookup_app_l.
Qed.

Lemma wf_refreshed w l :
  wf w → task_refs w = Some l → wf (refreshed l w).
Proof.
  intros Hwf Hl. apply wf_copied; [by apply wf_copied |].
  by apply task_refs_copied.
Qed.

Lemma append_items_eq now l ts :
  ∀ p w,
    deref_all w l = Some ts →
    append_items now l p w
    = Some (Normal tt,
            set_todoList_children
              (todoList_children p ++ (createTaskElement now <$> ts)) p,
            w).
Proof.
  intros p w. unfold deref_all. rewrite mapM_Some. intros H. revert p.
  induction H as [|r t l ts Ht _ IH]; intros p.
  { cbn. rewrite app_nil_r. by destruct p. }
  cbn [append_items].
  erewrite ui_bind_normal
    by (apply call_eq; by apply read_task_eq).
  erewrite ui_bind_normal by reflexivity.
  rewrite IH. unfold append_child, set_todoList_children. cbn.
  by rewrite <- app_assoc.
Qed.

Lemma renderTasks_eq now p w l ts :
  task_refs w = Some l → deref_all w l = Some ts →
  renderTasks now p w
  = Some (Normal tt, set_todoList_children (createTaskElement now <$> ts) p,
          copied l w).
Proof.
  intros Hl Hts. unfold renderTasks.
  erewrite ui_bind_normal by reflexivity.
  erewrite ui_bind_normal
    by (apply call_eq; by apply getAllTasks_eq).
  erewrite ui_bind_normal
    by (apply call_eq; apply read_array_eq; cbn; by apply list_lookup_middle).
  by rewrite (append_items_eq now l ts).
Qed.

Lemma updateEmptyState_eq p w l :
  task_refs w = Some l →
  updateEmptyState p w
  = Some (Normal tt,
          set_displays
            (if 0 <? Z.of_nat (length l)
             then code_units "block" else code_units "none")
            (if 0 <? Z.of_nat (length l)
             then code_units "none" else code_units "block") p,
          copied l w).
Proof.
  intros Hl. unfold updateEmptyState.
  erewrite ui_bind_normal
    by (apply call_eq; by apply getAllTasks_eq).
  erewrite ui_bind_normal
    by (apply call_eq; apply read_array_eq; cbn; by apply list_lookup_middle).
  reflexivity.
Qed.

Lemma updateUI_eq now p w l ts :
  wf w → task_refs w = Some l → deref_all w l = Some ts →
  updateUI now p w = Some (Normal tt, shown now ts p, refreshed l w).
Proof.
  intros Hwf Hl Hts. unfold updateUI.
  erewrite ui_bind_normal by (by apply renderTasks_eq).
  pose proof (task_refs_copied w l l Hwf Hl) as Hl1.
  unfold updateStats.
  erewrite ui_bind_normal; cycle 1.
  { erewrite ui_bind_normal; [reflexivity |].
    apply call_eq. apply getStats_eq. unfold collection.
    rewrite Hl1. cbn. exact Hts. }
  cbn [Stats.total Stats.completed Stats.remaining].
  rewrite (updateEmptyState_eq _ _ l Hl1).
  unfold shown, refreshed. by rewrite (length_mapM _ _ _ Hts).
Qed.

Lemma collection_copied w k : wf w → collection (copied k w) = collection w.
Proof.
  intros [Ht _]. unfold collection, task_refs, copied. cbn.
  by rewrite lookup_app_l.
Qed.

Lemma collection_refreshed w l :
  wf w → task_refs w = Some l → collection (refreshed l w) = collection w.
Proof.
  intros Hwf Hl. unfold refreshed.
  rewrite collection_copied by (by apply wf_copied).
  by apply collection_copied.
Qed.

Lemma inv_refreshed w l :
  inv w → task_refs w = Some l → inv (refreshed l w).
Proof.
  intros Hinv Hl.
  pose proof (outcome_inv 0 GetAllTasks w l Hinv Hl) as H1.
  cbn [outcome snd] in H1.
  apply (outcome_inv 0 GetAllTasks _ l H1).
  apply task_refs_copied; [by apply inv_wf | done].
Qed.

Lemma run_app calls1 :
  ∀ calls2 w ids1 w1 ids2 w2,
    run calls1 w = Some (ids1, w1) →
    run calls2 w1 = Some (ids2, w2) →
    run (calls1 ++ calls2) w = Some (ids1 ++ ids2, w2).
Proof.
  induction calls1 as [|[now c] rest IH];
    intros calls2 w ids1 w1 ids2 w2 H1 H2.
  { by injection H1 as <- <-. }
  cbn [app run] in *.
  destruct (perform now c w) as [[[[r|]|e] w']|]; try done;
    try (by eapply IH).
  destruct (task_heap w' !! r) as [t|]; [| done]. cbn in *.
  destruct (run rest w') as [[ids' w'']|] eqn:Hrest; [| done]. cbn in *.
  injection H1 as <- <-.
  by rewrite (IH calls2 w' ids' w'' ids2 w2 Hrest H2).
Qed.

Lemma run_refresh now w l :
  wf w → task_refs w = Some l →
  run (refresh_calls now) w = Some ([], refreshed l w).
Proof.
  intros Hwf Hl. unfold refresh_calls.
  rewrite (run_cons now GetAllTasks _ w l Hwf Hl). cbn [outcome].
  pose proof (wf_copied w l Hwf Hl) as Hwf1.
  pose proof (task_refs_copied w l l Hwf Hl) as Hl1.
  rewrite (run_cons now GetStats _ _ l Hwf1 Hl1). cbn [outcome].
  by rewrite (run_cons now GetAllTasks _ _ l Hwf1 Hl1).
Qed.

(** A call that completes normally, followed by [updateUI()]. *)
Lemma then_updateUI now (m : Js unit) p w w1 l1 ts1 :
  m w = Some (Normal tt, w1) →
  wf w1 → task_refs w1 = Some l1 → deref_all w1 l1 = Some ts1 →
  (call m;; updateUI now) p w
  = Some (Normal tt, shown now ts1 p, refreshed l1 w1).
Proof.
  intros Hm Hwf Hl Hts.
  erewrite ui_bind_normal by (by apply call_eq).
  by apply updateUI_eq.
Qed.

Lemma handleAddTask_throw now p w :
  trim (taskInput_value p) = [] →
  handleAddTask now p w
  = Some (Normal tt, add_dialog (Alert alert_message) p, w).
Proof.
  intros Hs. unfold handleAddTask.
  erewrite ui_bind_normal by reflexivity.
  erewrite ui_bind_normal by reflexivity.
  unfold try_catch. unfold mbind at 1, Ui_bind at 1.
  by rewrite (call_eq _ _ _ _ _ (addTask_throw now _ _ w Hs)).
Qed.

Lemma handleAddTask_normal now p w l ts :
  wf w → task_refs w = Some l → deref_all w l = Some ts →
  trim (taskInput_value p) ≠ [] →
  let d := js_or (JsText (deadlineInput_value p)) JsNull in
  let t := made_task now (nextId (this w)) (taskInput_value p) d in
  let w1 :=
    mkWorld (task_heap w ++ [t])
      (<[tasks (this w) := l ++ [length (task_heap w)]]> (array_heap w))
      (mkTaskManager (tasks (this w)) (nextId (this w) + 1)) in
  handleAddTask now p w
  = Some (Normal tt,
          set_taskInput_focused true
            (shown now (ts ++ [t])
               (set_deadlineInput_value [] (set_taskInput_value [] p))),
          refreshed (l ++ [length (task_heap w)]) w1).
Proof.
  intros Hwf Hl Hts Hs d t w1. unfold handleAddTask.
  erewrite ui_bind_normal by reflexivity.
  erewrite ui_bind_normal by reflexivity.
  unfold try_catch.
  erewrite ui_bind_normal
    by (apply call_eq; by apply (addTask_normal now _ d w l)).
  erewrite ui_bind_normal by reflexivity.
  erewrite ui_bind_normal by reflexivity.
  erewrite ui_bind_normal; [reflexivity |].
  apply updateUI_eq.
  - by apply wf_added.
  - by apply task_refs_added.
  - destruct (collection_split _ _ (collection_added w l ts t Hwf Hl Hts))
      as (l' & Hl' & Hd').
    rewrite task_refs_added in Hl' by done. by injection Hl' as <-.
Qed.

(** X16.  [escapeHtml(text)] holds no [<] and no [>], whatever the text:
    a task text cannot open or close a tag in the item's HTML.  A text
    without [&], [<], [>] and no-break space is left as it is. *)
Theorem escapeHtml_no_markup (s : JsString) :
  Forall (λ c, c ≠ 0x3C ∧ c ≠ 0x3E)%N (escapeHtml s)
  ∧ (Forall (λ c, c ≠ 0x26 ∧ c ≠ 0xA0 ∧ c ≠ 0x3C ∧ c ≠ 0x3E)%N s
     → escapeHtml s = s).
Proof.
  unfold escapeHtml. split.
  - induction s as [|c s IH]; [constructor |].
    cbn [fmap list_fmap concat]. apply Forall_app. split; [| exact IH].
    unfold escape_code_unit.
    destruct (N.eqb_spec c 0x26); [by repeat constructor |].
    destruct (N.eqb_spec c 0xA0); [by repeat constructor |].
    destruct (N.eqb_spec c 0x3C); [by repeat constructor |].
    destruct (N.eqb_spec c 0x3E); [by repeat constructor |].
    by repeat constructor.
  - induction 1 as [|c s (H1 & H2 & H3 & H4) _ IH]; [done |].
    cbn [fmap list_fmap concat]. rewrite IH. unfold escape_code_unit.
    apply N.eqb_neq in H1, H2, H3, H4. by rewrite H1, H2, H3, H4.
Qed.

(** X17.  The class of an item is one of four, by precedence: a
    completed task is "completed" whatever its deadline; a task that is
    not completed is "overdue" after a valid deadline, "due-soon" in the
    24 hours before it, and plain otherwise. *)
Theorem createTaskElement_class (now : Z) (t : Task) :
  (className (createTaskElement now t) = code_units "todo-item completed"
   ↔ completed t = true)
  ∧ (className (createTaskElement now t) = code_units "todo-item overdue"
     ↔ completed t = false
       ∧ ∃ d, deadline t = Some (Some d) ∧ d < now)
  ∧ (className (createTaskElement now t) = code_units "todo-item due-soon"
     ↔ completed t = false
       ∧ ∃ d, deadline t = Some (Some d) ∧ 0 < d - now ≤ 24 * 3600000)
  ∧ (className (createTaskElement now t) = code_units "todo-item"
     ↔ completed t = false
       ∧ ∀ d, deadline t = Some (Some d) →
              d = now ∨ 24 * 3600000 < d - now).
Proof.
  pose proof (isOverdue_true now t) as Ho.
  pose proof (isDueSoon_true now t) as Hs.
  unfold createTaskElement. cbn [className].
  destruct (completed t) eqn:Hc.
  { repeat split; try done; by intros [? _]. }
  destruct (isOverdue now t) eqn:Eo.
  { destruct (proj1 Ho eq_refl) as (_ & _ & d & Hd & Hlt).
    repeat split; try done; try (by exists d).
    - intros (_ & d' & Hd' & Hlt'). assert (d' = d) by congruence. lia.
    - intros (_ & Hall). destruct (Hall d Hd); lia. }
  destruct (isDueSoon now t) eqn:Es.
  { destruct (proj1 Hs eq_refl) as (_ & _ & d & Hd & Hlt).
    repeat split; try done; try (by exists d).
    - intros (_ & d' & Hd' & Hlt'). assert (d' = d) by congruence. lia.
    - intros (_ & Hall). destruct (Hall d Hd); lia. }
  repeat split; try done.
  - intros (_ & d & Hd & Hlt).
    assert (false = true); [| done]. apply Ho.
    split; [congruence | split; [done | by exists d]].
  - intros (_ & d & Hd & Hlt).
    assert (false = true); [| done]. apply Hs.
    split; [congruence | split; [done | by exists d]].
  - intros d Hd.
    destruct (decide (d < now)) as [Hlt|Hge].
    { assert (false = true); [| done]. apply Ho.
      split; [congruence | split; [done | by exists d]]. }
    destruct (decide (0 < d - now ≤ 24 * 3600000)) as [Hin|Hout]; [| lia].
    assert (false = true); [| done]. apply Hs.
    split; [congruence | split; [done | by exists d]].
Qed.

(** X18.  [handleAddTask()] with a text input whose trim is empty shows
    the alert and does nothing else: the world is as it was, no task is
    created, and the page keeps the two input values and all it
    showed. *)
Theorem handleAddTask_blank (now : Z) (p : Page) (w : World) :
  trim (taskInput_value p) = [] →
  handleAddTask now p w
  = Some (Normal tt, add_dialog (Alert alert_message) p, w).
Proof. apply handleAddTask_throw. Qed.

(** X19.  [handleAddTask()] with any other text adds a task with the
    trimmed text at the end of the collection; the task has no deadline
    exactly when the deadline input is empty.  The two inputs are
    emptied, the text input has the focus, no dialog is shown, and the
    counter of all tasks shows one more. *)
Theorem handleAddTask_accepted (now : Z) (p : Page) (w : World) :
  wf w → trim (taskInput_value p) ≠ [] →
  ∃ p' w' ts t,
    handleAddTask now p w = Some (Normal tt, p', w')
    ∧ collection w = Some ts
    ∧ collection w' = Some (ts ++ [t])
    ∧ text t = trim (taskInput_value p)
    ∧ completed t = false
    ∧ (deadline t = None ↔ deadlineInput_value p = [])
    ∧ (deadlineInput_value p ≠ [] →
       deadline t = Some (TimeClip (Date_parse (deadlineInput_value p))))
    ∧ taskInput_value p' = []
    ∧ deadlineInput_value p' = []
    ∧ taskInput_focused p' = true
    ∧ dialogs p' = dialogs p
    ∧ totalTasks_textContent p'
      = number_to_string (Z.of_nat (length ts) + 1).
Proof.
  intros Hwf Hs.
  destruct (wf_task_refs w Hwf) as (l & Hl & Hok).
  destruct (deref_all_is_Some w l Hok) as [ts Hts].
  set (d := js_or (JsText (deadlineInput_value p)) JsNull).
  set (t := made_task now (nextId (this w)) (taskInput_value p) d).
  eexists _, _, ts, t.
  split; [by apply (handleAddTask_normal now p w l ts) |].
  split; [unfold collection; by rewrite Hl |].
  split.
  { rewrite collection_refreshed.
    - by apply collection_added.
    - by apply wf_added.
    - by apply task_refs_added. }
  split; [done |]. split; [done |].
  assert (Z.of_nat (length (ts ++ [t])) = Z.of_nat (length ts) + 1) as Hlen
    by (rewrite length_app; cbn; lia).
  assert (totalTasks_textContent
            (set_taskInput_focused true
               (shown now (ts ++ [t])
                  (set_deadlineInput_value [] (set_taskInput_value [] p))))
          = number_to_string (Z.of_nat (length ts) + 1)) as Htotal
    by (cbn; by rewrite Hlen).
  split; [| split; [| by repeat split]].
  - unfold t, made_task, d, js_or. cbn [deadline truthy].
    destruct (decide (deadlineInput_value p = [])) as [He|Hne].
    + rewrite bool_decide_eq_true_2 by done. by cbn.
    + rewrite bool_decide_eq_false_2 by done. cbn.
      rewrite bool_decide_eq_false_2 by done. by split.
  - intros Hne. unfold t, made_task, d, js_or. cbn [deadline truthy].
    rewrite bool_decide_eq_false_2 by done. cbn.
    by rewrite bool_decide_eq_false_2.
Qed.

Lemma handleClearCompleted_no now p w :
  handleClearCompleted now false p w
  = Some (Normal tt, add_dialog (Confirm confirm_message) p, w).
Proof. done. Qed.

Lemma handleClearCompleted_yes now p w l ts :
  wf w → task_refs w = Some l → deref_all w l = Some ts →
  let keep := λ task : Task, negb (completed task) in
  handleClearCompleted now true p w
  = Some (Normal tt,
          shown now (filter (λ t, keep t) ts)
            (add_dialog (Confirm confirm_message) p),
          refreshed (filter (λ r, holds keep w r) l) (filtered keep l w)).
Proof.
  intros Hwf Hl Hts keep. unfold handleClearCompleted, confirm.
  erewrite ui_bind_normal by reflexivity.
  apply then_updateUI.
  - apply clearCompleted_eq; [done | by eapply deref_all_refs_ok].
  - by apply wf_filtered.
  - apply task_refs_filtered.
  - rewrite (deref_all_heap w) by done. by apply deref_all_filter.
Qed.

Lemma no_completed_iff (ts : list Task) :
  (Z.of_nat (length (filter (λ t, completed t) ts)) =? 0) = true
  ↔ Forall (λ t, completed t = false) ts.
Proof.
  rewrite Z.eqb_eq. induction ts as [|t ts IH]; [done |].
  rewrite length_filter_cons, Forall_cons, <- IH.
  destruct (completed t); [| lia].
  split; [lia | by intros [? _]].
Qed.

(** X20.  [handleClearCompleted()] asks its question first.  When the
    user declines, the question is all that happened.  When the user
    agrees, the completed tasks leave the collection, the counter of
    completed tasks shows 0 and the clear button is disabled. *)
Theorem handleClearCompleted_asks (now : Z) (p : Page) (w : World) :
  wf w →
  handleClearCompleted now false p w
  = Some (Normal tt, add_dialog (Confirm confirm_message) p, w)
  ∧ ∃ p' w' ts,
      handleClearCompleted now true p w = Some (Normal tt, p', w')
      ∧ collection w = Some ts
      ∧ collection w' = Some (filter (λ t, completed t = false) ts)
      ∧ dialogs p' = dialogs p ++ [Confirm confirm_message]
      ∧ completedTasks_textContent p' = code_units "0"
      ∧ clearCompleted_disabled p' = true.
Proof.
  intros Hwf. split; [done |].
  destruct (wf_task_refs w Hwf) as (l & Hl & Hok).
  destruct (deref_all_is_Some w l Hok) as [ts Hts].
  eexists _, _, ts.
  split; [by apply (handleClearCompleted_yes now p w l ts) |].
  split; [unfold collection; by rewrite Hl |].
  split.
  { rewrite collection_refreshed.
    - rewrite (collection_filtered _ w l ts Hts). f_equal.
      apply list_filter_iff. intros t. destruct (completed t); cbn; split;
        try done; by intros [].
    - by apply wf_filtered.
    - apply task_refs_filtered. }
  split; [done |].
  unfold shown. cbn [completedTasks_textContent clearCompleted_disabled
    set_displays set_counters].
  by rewrite no_completed_left.
Qed.

(** ** The application *)

Lemma in_sync_shown now ts q w :
  collection w = Some ts → in_sync (shown now ts q) w.
Proof. intros Hts. by exists now, ts. Qed.

Lemma in_sync_page (f : Page → Page) p w :
  (∀ now ts q, shown now ts (f q) = f (shown now ts q)) →
  in_sync p w → in_sync (f p) w.
Proof.
  intros Hf (now & ts & Hts & Hp). exists now, ts.
  split; [done |]. by rewrite Hf, Hp.
Qed.

Lemma unit_call_eq now c w l :
  wf w → task_refs w = Some l →
  match c with
  | DeleteTask i => deleteTask i w = Some (Normal tt, (outcome now c l w).2)
  | ToggleTask i => toggleTask i w = Some (Normal tt, (outcome now c l w).2)
  | ClearCompleted =>
      clearCompleted w = Some (Normal tt, (outcome now c l w).2)
  | _ => True
  end.
Proof.
  intros Hwf Hl. destruct (wf_task_refs w Hwf) as (l' & Hl' & Hok).
  assert (l' = l) as -> by congruence.
  destruct c as [s d|i|i| | |]; cbn [outcome snd]; try done.
  - by apply deleteTask_eq.
  - destruct (List.find _ l) as [r|] eqn:Hfind.
    + destruct (find_some _ _ Hfind) as [Hr _].
      apply list_elem_of_In in Hr.
      destruct (refs_ok_lookup w l r Hok Hr) as [t Ht].
      by eapply toggleTask_found.
    + by eapply toggleTask_absent.
  - by apply clearCompleted_eq.
Qed.

Lemma op_then_updateUI now c (m : Js unit) p w l :
  inv w → task_refs w = Some l →
  m w = Some (Normal tt, (outcome now c l w).2) →
  (outcome now c l w).1 = Normal None →
  ∃ p' w' ts',
    (call m;; updateUI now) p w = Some (Normal tt, p', w')
    ∧ p' = shown now ts' p
    ∧ collection w' = Some ts'
    ∧ inv w'
    ∧ run ((now, c) :: refresh_calls now) w = Some ([], w').
Proof.
  intros Hinv Hl Hm Hres.
  pose proof (outcome_inv now c w l Hinv Hl) as Hinv1.
  pose proof (inv_wf _ Hinv1) as Hwf1.
  destruct (wf_task_refs _ Hwf1) as (l1 & Hl1 & Hok1).
  destruct (deref_all_is_Some _ l1 Hok1) as [ts1 Hts1].
  exists (shown now ts1 p), (refreshed l1 (outcome now c l w).2), ts1.
  split; [by apply then_updateUI |]. split; [done |].
  split.
  { rewrite collection_refreshed by done. unfold collection.
    by rewrite Hl1. }
  split; [by apply inv_refreshed |].
  rewrite (run_cons now c _ w l (inv_wf w Hinv) Hl).
  destruct (outcome now c l w) as [res w1]. cbn [fst snd] in *.
  subst res. by apply run_refresh.
Qed.

(** One event on a page in sync with a world of [inv]: the handler
    completes, the world it leaves is the one its calls into the manager
    give, and the page is in sync again. *)
Lemma dispatch_step now e p w :
  inv w → in_sync p w →
  ∃ p' w' ids,
    dispatch now e p w = Some (Normal tt, p', w')
    ∧ run (calls_of now e p) w = Some (ids, w')
    ∧ inv w'
    ∧ in_sync p' w'.
Proof.
  intros Hinv Hsync.
  pose proof (inv_wf w Hinv) as Hwf.
  destruct (wf_task_refs w Hwf) as (l & Hl & Hok).
  destruct (deref_all_is_Some w l Hok) as [ts Hts].
  destruct e as [s|s| | |i|i|answer]; cbn [dispatch calls_of].
  - exists (set_taskInput_value s p), w, [].
    split; [done |]. split; [done |]. split; [done |].
    by apply (in_sync_page (set_taskInput_value s)).
  - exists (set_deadlineInput_value s p), w, [].
    split; [done |]. split; [done |]. split; [done |].
    by apply (in_sync_page (set_deadlineInput_value s)).
  - exists (set_taskInput_focused true p), w, [].
    split; [done |]. split; [done |]. split; [done |].
    by apply (in_sync_page (set_taskInput_focused true)).
  - set (d := js_or (JsText (deadlineInput_value p)) JsNull).
    unfold accepted. cbn [snd].
    destruct (decide (trim (taskInput_value p) = [])) as [Hs|Hs].
    + rewrite bool_decide_eq_true_2 by done. cbn [negb].
      exists (add_dialog (Alert alert_message) p), w, [].
      split; [by apply handleAddTask_throw |].
      split.
      { rewrite (run_cons now _ _ w l Hwf Hl). cbn [outcome].
        by rewrite bool_decide_eq_true_2. }
      split; [done |].
      by apply (in_sync_page (add_dialog (Alert alert_message))).
    + rewrite bool_decide_eq_false_2 by done. cbn [negb].
      pose proof (handleAddTask_normal now p w l ts Hwf Hl Hts Hs) as Hh.
      cbn zeta in Hh. fold d in Hh.
      set (t := made_task now (nextId (this w)) (taskInput_value p) d) in *.
      pose proof (outcome_inv now (AddTask (taskInput_value p) d) w l
                    Hinv Hl) as Hinv1.
      cbn [outcome] in Hinv1.
      rewrite bool_decide_eq_false_2 in Hinv1 by done.
      cbn [snd] in Hinv1. fold t in Hinv1.
      eexists _, _, [id t]. split; [exact Hh |].
      split.
      { rewrite (run_cons now _ _ w l Hwf Hl). cbn [outcome].
        rewrite bool_decide_eq_false_2 by done. fold t.
        cbn [task_heap]. rewrite list_lookup_middle by done.
        cbn [mbind option_bind].
        rewrite (run_refresh now _ (l ++ [length (task_heap w)])).
        - done.
        - by apply inv_wf.
        - by apply task_refs_added. }
      split.
      { apply inv_refreshed; [done | by apply task_refs_added]. }
      apply (in_sync_page (set_taskInput_focused true)); [done |].
      apply in_sync_shown.
      rewrite collection_refreshed.
      * by apply collection_added.
      * by apply inv_wf.
      * by apply task_refs_added.
  - destruct (op_then_updateUI now (DeleteTask i) (deleteTask i) p w l
                Hinv Hl) as (p' & w' & ts' & Hrun & -> & Hts' & Hinv' & Hcalls).
    { apply (unit_call_eq now (DeleteTask i) w l Hwf Hl). }
    { done. }
    exists (shown now ts' p), w', []. split; [exact Hrun |].
    split; [done |]. split; [done |]. by apply in_sync_shown.
  - destruct (op_then_updateUI now (ToggleTask i) (toggleTask i) p w l
                Hinv Hl) as (p' & w' & ts' & Hrun & -> & Hts' & Hinv' & Hcalls).
    { apply (unit_call_eq now (ToggleTask i) w l Hwf Hl). }
    { done. }
    exists (shown now ts' p), w', []. split; [exact Hrun |].
    split; [done |]. split; [done |]. by apply in_sync_shown.
  - unfold read_page. unfold mbind at 1, Ui_bind at 1.
    destruct (clearCompleted_disabled p).
    { by exists p, w, []. }
    destruct answer.
    + set (q := add_dialog (Confirm confirm_message) p).
      destruct (op_then_updateUI now ClearCompleted clearCompleted q w l
                  Hinv Hl) as (p' & w' & ts' & Hrun & -> & Hts' & Hinv' & Hcalls).
      { apply (unit_call_eq now ClearCompleted w l Hwf Hl). }
      { done. }
      exists (shown now ts' q), w', []. split; [exact Hrun |].
      split; [done |]. split; [done |]. by apply in_sync_shown.
    + exists (add_dialog (Confirm confirm_message) p), w, [].
      split; [done |]. split; [done |]. split; [done |].
      by apply (in_sync_page (add_dialog (Confirm confirm_message))).
Qed.

Lemma ui_run_inv events :
  ∀ p w, inv w → in_sync p w →
  ∃ p' w' calls ids,
    ui_run events p w = Some (p', w')
    ∧ run calls w = Some (ids, w')
    ∧ inv w'
    ∧ in_sync p' w'.
Proof.
  induction events as [|[now e] rest IH]; intros p w Hinv Hsync.
  { by exists p, w, [], []. }
  destruct (dispatch_step now e p w Hinv Hsync)
    as (p1 & w1 & ids1 & Hd & Hcalls & Hinv1 & Hsync1).
  destruct (IH p1 w1 Hinv1 Hsync1)
    as (p2 & w2 & calls2 & ids2 & Hrun & Hcalls2 & Hinv2 & Hsync2).
  exists p2, w2, (calls_of now e p ++ calls2), (ids1 ++ ids2).
  split; [cbn [ui_run]; by rewrite Hd |].
  split; [by eapply run_app |]. done.
Qed.

Lemma new_TodoApp_eq now p :
  new_TodoApp now p
  = Some (shown now [] p, refreshed [] new_TaskManager).
Proof.
  unfold new_TodoApp.
  by rewrite (updateUI_eq now p new_TaskManager [] []
                wf_new_TaskManager eq_refl eq_refl).
Qed.

Lemma app_reaches now0 p0 events :
  ∃ p w calls ids,
    ui_run events (shown now0 [] p0) (refreshed [] new_TaskManager)
    = Some (p, w)
    ∧ run calls new_TaskManager = Some (ids, w)
    ∧ inv w
    ∧ in_sync p w.
Proof.
  destruct (ui_run_inv events (shown now0 [] p0)
              (refreshed [] new_TaskManager))
    as (p & w & calls & ids & Hrun & Hcalls & Hinv & Hsync).
  - by apply inv_refreshed; [apply inv_new_TaskManager |].
  - by apply in_sync_shown.
  - exists p, w, (refresh_calls now0 ++ calls), ([] ++ ids).
    split; [done |]. split; [| done].
    eapply run_app; [| exact Hcalls].
    by apply run_refresh; [apply wf_new_TaskManager |].
Qed.

(** X21.  However the application is used, the page shows the manager's
    tasks: the list has one item for each task of the collection, in its
    order, as [createTaskElement] made them at one time; the three
    counters show the numbers of all, of the completed and of the other
    tasks; the clear button is disabled exactly when no task is
    completed; and of the list and the empty-state block exactly one is
    displayed, the block when there is no task. *)
Theorem page_shows_tasks (now0 : Z) (p0 : Page) (events : list (Z * Event)) :
  ∃ p1 w1 p w ts now,
    new_TodoApp now0 p0 = Some (p1, w1)
    ∧ ui_run events p1 w1 = Some (p, w)
    ∧ collection w = Some ts
    ∧ todoList_children p = createTaskElement now <$> ts
    ∧ totalTasks_textContent p = number_to_string (Z.of_nat (length ts))
    ∧ completedTasks_textContent p
      = number_to_string
          (Z.of_nat (length (filter (λ t, completed t = true) ts)))
    ∧ remainingTasks_textContent p
      = number_to_string
          (Z.of_nat (length (filter (λ t, completed t = false) ts)))
    ∧ (clearCompleted_disabled p = true
       ↔ Forall (λ t, completed t = false) ts)
    ∧ (todoList_display p, emptyState_display p)
      = (if decide (ts = []) then (code_units "none", code_units "block")
         else (code_units "block", code_units "none")).
Proof.
  destruct (app_reaches now0 p0 events)
    as (p & w & calls & ids & Hrun & _ & _ & now & ts & Hts & Hp).
  exists (shown now0 [] p0), (refreshed [] new_TaskManager), p, w, ts, now.
  split; [apply new_TodoApp_eq |]. split; [done |]. split; [done |].
  rewrite <- Hp. unfold shown.
  cbn [todoList_children totalTasks_textContent completedTasks_textContent
       remainingTasks_textContent clearCompleted_disabled todoList_display
       emptyState_display set_displays set_counters set_todoList_children].
  split; [done |]. split; [done |].
  split.
  { f_equal. f_equal. f_equal. apply list_filter_iff. intros t.
    apply Is_true_true. }
  split.
  { f_equal. rewrite <- length_not_completed. f_equal. f_equal.
    apply list_filter_iff. intros t. destruct (completed t); cbn; split;
      try done; by intros []. }
  split; [apply no_completed_iff |].
  destruct ts as [|t ts]; [done |]. by rewrite decide_False.
Qed.



End TaskList.

(** ** Examples *)

Example trim_example :
  trim (code_units "  ab c  ") = code_units "ab c"
  ∧ trim (code_units "") = [] ∧ trim (code_units "   ") = [].
Proof. done. Qed.

Example sample_session_runs :
  run sample_parse sample_session new_TaskManager
  = Some ([1; 2], sample_reached).
Proof. reflexivity. Qed.

(** The statistics of three tasks, one completed, one overdue and not
    completed, one without a deadline. *)
Example getStats_sample :
  getStats 100000 sample_world
  = Some (Normal (Stats.mk 3 1 2 1 0), sample_world).
Proof. reflexivity. Qed.

(** A deadline two hours ahead: due soon and not overdue, and neither
    once the task is toggled.  A deadline one minute ago: overdue and
    not due soon. *)
Example deadline_examples :
  let in_two_hours := mkTask 1 (code_units "a") false (Some 0)
                        (Some (Some (1000000 + 2 * 3600000))) in
  let a_minute_ago := mkTask 2 (code_units "b") false (Some 0)
                        (Some (Some (1000000 - 60000))) in
  isOverdue 1000000 in_two_hours = false
  ∧ isDueSoon 1000000 in_two_hours = true
  ∧ isOverdue 1000000 (toggle in_two_hours) = false
  ∧ isDueSoon 1000000 (toggle in_two_hours) = false
  ∧ isOverdue 1000000 a_minute_ago = true
  ∧ isDueSoon 1000000 a_minute_ago = false.
Proof. done. Qed.

(** The window of [isDueSoon] is open at the deadline and closed at 24
    hours before it; an invalid date is in no window. *)
Example isDueSoon_bounds :
  let due d := mkTask 1 (code_units "a") false (Some 0) (Some d) in
  isDueSoon 0 (due (Some 0)) = false
  ∧ isDueSoon 0 (due (Some 1)) = true
  ∧ isDueSoon 0 (due (Some 86400000)) = true
  ∧ isDueSoon 0 (due (Some 86400001)) = false
  ∧ isDueSoon 0 (due None) = false
  ∧ isOverdue 0 (due None) = false.
Proof. done. Qed.

(** The double comparisons at the ends of the window, far from it and
    at the largest difference of two time values. *)
Example due_window_binary64_agrees :
  Forall (λ timeDiff, due_window_binary64 timeDiff = due_window timeDiff)
    [ -17280000000000000; -86400000; -1; 0; 1; 2; 3599999; 3600000;
      86399999; 86400000; 86400001; 86400002; 172800000;
      9007199254740993; 17280000000000000 ].
Proof. repeat constructor. Qed.

Example isDueSoon_due_window now t d :
  deadline t = Some (Some d) → completed t = false →
  isDueSoon now t = due_window (d - now).
Proof. unfold isDueSoon, due_window. by intros -> ->. Qed.

Lemma wf_sample_world : wf sample_world.
Proof.
  split; cbn; [lia |]. repeat constructor; cbn; lia.
Defined.

(** ** The theorems at the sample data *)

Lemma addTask_blank_text_witness :
  trim (code_units "   ") = []
  ∧ addTask sample_parse 100000 (code_units "   ") JsNull sample_world
    = Some (Throw (Error "Task text cannot be empty"), sample_world).
Proof.
  split; [reflexivity |].
  apply (addTask_blank_text sample_parse). reflexivity.
Defined.

Lemma addTask_creates_witness :
  ∃ r t w' ts,
    addTask sample_parse 100000 (code_units " buy milk ")
      (JsText (code_units "1970-01-02T00:00")) sample_world
    = Some (Normal r, w')
    ∧ task_heap w' !! r = Some t
    ∧ text t = trim (code_units " buy milk ")
    ∧ completed t = false
    ∧ id t = nextId (this sample_world)
    ∧ nextId (this w') = nextId (this sample_world) + 1
    ∧ collection sample_world = Some ts
    ∧ collection w' = Some (ts ++ [t]).
Proof.
  apply (addTask_creates sample_parse); [apply wf_sample_world |].
  vm_compute. discriminate.
Defined.

Lemma addTask_deadline_witness :
  ∃ r t w',
    addTask sample_parse 100000 (code_units "buy milk") (JsText [])
      sample_world
    = Some (Normal r, w')
    ∧ task_heap w' !! r = Some t
    ∧ deadline t
      = (if truthy (JsText []) then Some (new_Date sample_parse (JsText []))
         else None)
    ∧ (truthy (JsText []) = false →
       ∀ now' b, isOverdue now' (set_completed b t) = false
                 ∧ isDueSoon now' (set_completed b t) = false)
    ∧ truthy JsNull = false
    ∧ truthy (JsText []) = false
    ∧ truthy (JsNumeric (Finite 0)) = false.
Proof.
  apply (addTask_deadline sample_parse); [apply wf_sample_world |].
  vm_compute. discriminate.
Defined.

Lemma getStats_counts_witness :
  ∃ ts st,
    collection sample_world = Some ts
    ∧ getStats 100000 sample_world = Some (Normal st, sample_world)
    ∧ Stats.total st = Z.of_nat (length ts)
    ∧ Stats.completed st
      = Z.of_nat (length (filter (λ t, completed t = true) ts))
    ∧ Stats.remaining st = Stats.total st - Stats.completed st
    ∧ Stats.overdue st
      = Z.of_nat (length (filter (λ t, isOverdue 100000 t = true) ts))
    ∧ Stats.dueSoon st
      = Z.of_nat (length (filter (λ t, isDueSoon 100000 t = true) ts)).
Proof. apply getStats_counts. apply wf_sample_world. Defined.

Lemma clearCompleted_idempotent_witness :
  ∃ ts w1 w2,
    collection sample_world = Some ts
    ∧ clearCompleted sample_world = Some (Normal tt, w1)
    ∧ collection w1 = Some (filter (λ t, completed t = false) ts)
    ∧ task_heap w1 = task_heap sample_world
    ∧ nextId (this w1) = nextId (this sample_world)
    ∧ clearCompleted w1 = Some (Normal tt, w2)
    ∧ manager_state w2 = manager_state w1.
Proof. apply clearCompleted_idempotent. apply wf_sample_world. Defined.

Lemma absent_id_no_op_witness :
  ∃ ts w1,
    collection sample_world = Some ts
    ∧ deleteTask 7 sample_world = Some (Normal tt, w1)
    ∧ toggleTask 7 w1 = Some (Normal tt, w1)
    ∧ (7 ∉ id <$> ts →
       manager_state w1 = manager_state sample_world
       ∧ toggleTask 7 sample_world = Some (Normal tt, sample_world)).
Proof. apply absent_id_no_op. apply wf_sample_world. Defined.

Lemma getAllTasks_snapshot_witness :
  ∃ a w1 l ts,
    getAllTasks sample_reached = Some (Normal a, w1)
    ∧ task_refs sample_reached = Some l
    ∧ collection sample_reached = Some ts
    ∧ array_heap w1 !! a = Some l
    ∧ snapshot w1 a = Some ts
    ∧ a ≠ tasks (this w1)
    ∧ manager_state w1 = manager_state sample_reached
    ∧ StronglySorted lt l
    ∧ StronglySorted Z.lt (id <$> ts)
    ∧ ∀ calls' ids' w2,
        run sample_parse calls' w1 = Some (ids', w2) →
        array_heap w2 !! a = Some l
        ∧ ∀ r t, task_heap w1 !! r = Some t →
                 ∃ b, task_heap w2 !! r = Some (set_completed b t).
Proof.
  apply (getAllTasks_snapshot sample_parse sample_session [1; 2]).
  reflexivity.
Defined.

(** ** The further theorems at the sample data *)

Lemma addTask_throws_iff_witness :
  ((∃ e w', addTask sample_parse 5 (code_units " a") JsNull sample_world
            = Some (Throw e, w'))
   ↔ Forall (λ c, is_white_space c = true) (code_units " a"))
  ∧ ((∃ r w', addTask sample_parse 5 (code_units " a") JsNull sample_world
              = Some (Normal r, w'))
     ↔ ¬ Forall (λ c, is_white_space c = true) (code_units " a")).
Proof. apply addTask_throws_iff. apply wf_sample_world. Defined.

Lemma texts_are_trimmed_witness :
  Forall (λ t, text t ≠ [] ∧ trim (text t) = text t
               ∧ (∀ c k, text t = c :: k → is_white_space c = false)
               ∧ (∀ k c, text t = k ++ [c] → is_white_space c = false))
    (task_heap sample_reached).
Proof.
  apply (texts_are_trimmed sample_parse sample_session [1; 2]). reflexivity.
Defined.

Lemma deadlines_in_range_witness :
  Forall (λ t, ∀ d, deadline t = Some (Some d) →
                    -8640000000000000 ≤ d ≤ 8640000000000000)
    (task_heap sample_reached).
Proof.
  apply (deadlines_in_range sample_parse sample_session [1; 2]). reflexivity.
Defined.

Lemma deleteTask_removes_witness :
  ∃ ts w1,
    collection sample_world = Some ts
    ∧ deleteTask 2 sample_world = Some (Normal tt, w1)
    ∧ collection w1 = Some (filter (λ t, id t ≠ 2) ts)
    ∧ task_heap w1 = task_heap sample_world
    ∧ nextId (this w1) = nextId (this sample_world).
Proof. apply deleteTask_removes. apply wf_sample_world. Defined.

Lemma deleteTask_removes_one_witness :
  ∃ ts1 t ts2 w1,
    [ mkTask 2 (code_units "b") false (Some 30) (Some (Some 86400000)) ]
    = ts1 ++ t :: ts2
    ∧ id t = 2
    ∧ deleteTask 2 sample_reached = Some (Normal tt, w1)
    ∧ collection w1 = Some (ts1 ++ ts2).
Proof.
  apply (deleteTask_removes_one sample_parse sample_session [1; 2]).
  - reflexivity.
  - reflexivity.
  - cbn. left.
Defined.

Lemma deleted_id_stays_out_witness :
  ∃ w1,
    deleteTask 1 sample_reached = Some (Normal tt, w1)
    ∧ ∀ calls' ids' w2 ts2,
        run sample_parse calls' w1 = Some (ids', w2) →
        collection w2 = Some ts2 →
        (1 ∉ id <$> ts2) ∧ (1 ∉ ids').
Proof.
  apply (deleted_id_stays_out sample_parse sample_session [1; 2]).
  - reflexivity.
  - cbn. lia.
Defined.

Lemma toggleTask_twice_witness :
  ∃ w1,
    toggleTask 2 sample_world = Some (Normal tt, w1)
    ∧ toggleTask 2 w1 = Some (Normal tt, sample_world).
Proof. apply toggleTask_twice. apply wf_sample_world. Defined.


Lemma getStats_bounds_witness :
  ∃ st,
    getStats 100000 sample_world = Some (Normal st, sample_world)
    ∧ 0 ≤ Stats.completed st ≤ Stats.total st
    ∧ 0 ≤ Stats.overdue st
    ∧ 0 ≤ Stats.dueSoon st
    ∧ Stats.overdue st + Stats.dueSoon st ≤ Stats.remaining st
    ∧ Stats.remaining st ≤ Stats.total st.
Proof. apply getStats_bounds. apply wf_sample_world. Defined.

Lemma getStats_after_clearCompleted_witness :
  ∃ st w1 st1,
    getStats 100000 sample_world = Some (Normal st, sample_world)
    ∧ clearCompleted sample_world = Some (Normal tt, w1)
    ∧ getStats 100000 w1 = Some (Normal st1, w1)
    ∧ Stats.completed st1 = 0
    ∧ Stats.total st1 = Stats.remaining st
    ∧ Stats.remaining st1 = Stats.remaining st
    ∧ Stats.overdue st1 = Stats.overdue st
    ∧ Stats.dueSoon st1 = Stats.dueSoon st.
Proof. apply getStats_after_clearCompleted. apply wf_sample_world. Defined.

Lemma deadline_timeline_witness :
  (isOverdue 90000
     (mkTask 2 (code_units "call Ann") false (Some 2000) (Some (Some 90000))),
   isDueSoon 90000
     (mkTask 2 (code_units "call Ann") false (Some 2000) (Some (Some 90000))))
  = if 90000 <? 90000 then (true, false)
    else if 90000 =? 90000 then (false, false)
    else if 90000 - 90000 <=? 24 * 3600000 then (false, true)
    else (false, false).
Proof. apply deadline_timeline; reflexivity. Defined.

Lemma addTask_invalid_deadline_witness :
  ∃ r t w',
    addTask sample_parse 5 (code_units "a") (JsText (code_units "soon"))
      sample_world
    = Some (Normal r, w')
    ∧ task_heap w' !! r = Some t
    ∧ deadline t = Some None
    ∧ ∀ now' b, isOverdue now' (set_completed b t) = false
                ∧ isDueSoon now' (set_completed b t) = false.
Proof.
  apply addTask_invalid_deadline.
  - apply wf_sample_world.
  - vm_compute. discriminate.
  - reflexivity.
  - reflexivity.
Defined.

Lemma snapshot_shares_tasks_witness :
  ∃ ts a w1 w2,
    collection sample_reached = Some ts
    ∧ getAllTasks sample_reached = Some (Normal a, w1)
    ∧ snapshot w1 a = Some ts
    ∧ toggleTask 2 w1 = Some (Normal tt, w2)
    ∧ snapshot w2 a
      = Some ((λ t, if id t =? 2 then toggle t else t) <$> ts)
    ∧ snapshot w2 a = collection w2.
Proof.
  apply (snapshot_shares_tasks sample_parse sample_session [1; 2]).
  reflexivity.
Defined.

Lemma task_changes_by_toggle_only_witness :
  run sample_parse sample_session new_TaskManager
  = Some ([1; 2], sample_reached)
  ∧ ∀ calls' ids' w2,
      run sample_parse calls' sample_reached = Some (ids', w2) →
      Forall (λ c, c.2 ≠ ToggleTask 2) calls' →
      task_heap w2 !! 1%nat
      = Some (mkTask 2 (code_units "b") false (Some 30)
                (Some (Some 86400000))).
Proof.
  split; [reflexivity |].
  apply (task_changes_by_toggle_only sample_parse sample_session [1; 2]
           sample_reached 1
           (mkTask 2 (code_units "b") false (Some 30)
              (Some (Some 86400000)))).
  - reflexivity.
  - reflexivity.
Defined.

Lemma complete_then_clear_witness :
  ∃ w1 w2,
    toggleTask 2 sample_reached = Some (Normal tt, w1)
    ∧ clearCompleted w1 = Some (Normal tt, w2)
    ∧ collection w2
      = Some (filter (λ t, completed t = false ∧ id t ≠ 2)
                [ mkTask 2 (code_units "b") false (Some 30)
                    (Some (Some 86400000)) ]).
Proof.
  apply (complete_then_clear sample_parse sample_session [1; 2]).
  - reflexivity.
  - reflexivity.
  - repeat constructor.
Defined.

Lemma handleAddTask_blank_witness :
  handleAddTask sample_parse sample_format 5
    (set_taskInput_value (code_units "   ") sample_page) sample_world
  = Some (Normal tt,
          add_dialog (Alert alert_message)
            (set_taskInput_value (code_units "   ") sample_page),
          sample_world).
Proof. apply handleAddTask_blank. reflexivity. Defined.

Lemma handleAddTask_accepted_witness :
  ∃ p' w' ts t,
    handleAddTask sample_parse sample_format 5 sample_page sample_world
    = Some (Normal tt, p', w')
    ∧ collection sample_world = Some ts
    ∧ collection w' = Some (ts ++ [t])
    ∧ text t = trim (taskInput_value sample_page)
    ∧ completed t = false
    ∧ (deadline t = None ↔ deadlineInput_value sample_page = [])
    ∧ (deadlineInput_value sample_page ≠ [] →
       deadline t
       = Some (TimeClip (sample_parse (deadlineInput_value sample_page))))
    ∧ taskInput_value p' = []
    ∧ deadlineInput_value p' = []
    ∧ taskInput_focused p' = true
    ∧ dialogs p' = dialogs sample_page
    ∧ totalTasks_textContent p'
      = number_to_string (Z.of_nat (length ts) + 1).
Proof.
  apply handleAddTask_accepted; [apply wf_sample_world |].
  vm_compute. discriminate.
Defined.

Lemma handleClearCompleted_asks_witness :
  handleClearCompleted sample_format 100000 false sample_page sample_world
  = Some (Normal tt, add_dialog (Confirm confirm_message) sample_page,
          sample_world)
  ∧ ∃ p' w' ts,
      handleClearCompleted sample_format 100000 true sample_page sample_world
      = Some (Normal tt, p', w')
      ∧ collection sample_world = Some ts
      ∧ collection w' = Some (filter (λ t, completed t = false) ts)
      ∧ dialogs p' = dialogs sample_page ++ [Confirm confirm_message]
      ∧ completedTasks_textContent p' = code_units "0"
      ∧ clearCompleted_disabled p' = true.
Proof. apply handleClearCompleted_asks. apply wf_sample_world. Defined.

(** The application on the sample page: a task is added, the emptied
    text input is rejected with the alert, and the page shows one
    task. *)
Example app_sample :
  (pw ← new_TodoApp sample_format 0 sample_page;
   pw' ← ui_run sample_parse sample_format
           [ (10, AddClicked); (20, AddClicked) ] pw.1 pw.2;
   Some (totalTasks_textContent pw'.1, remainingTasks_textContent pw'.1,
         className <$> todoList_children pw'.1, dialogs pw'.1,
         taskInput_value pw'.1, todoList_display pw'.1,
         emptyState_display pw'.1, nextId (this pw'.2)))
  = Some (code_units "1", code_units "1", [ code_units "todo-item" ],
          [ Alert alert_message ], [], code_units "block",
          code_units "none", 2).
Proof. vm_compute. reflexivity. Qed.
